(** * BossAttackController: the attack catalog, the selector, the difficulty
    curve and the attack-cycle state machine of [useBossAttackController].

    The development follows [src/BossAttackController.jsx].  JavaScript
    numbers are modelled by exact numbers: health, damage amounts and
    durations by [Z]; times, weights and random draws by [Q].
    [Math.random()] is an explicit draw taken from the host state, a timeout
    fires at its due time, and the two callbacks of the host
    ([onBossDefeated], [onPlayerHit]) are recorded in the order they are
    called.  Rendering (meshes, HUD) is left out. *)

From Stdlib Require Import ZArith QArith Qround Qminmax List Bool Lia Lqa.
From stdpp Require Import gmap strings.
Import ListNotations.

Local Open Scope string_scope.
Local Open Scope Z_scope.

(** ** Constants and configuration *)

Module BOSS_CONFIG.
Definition BASE_HP : Z := 1000.
Definition DAMAGE_FLASH_DURATION : Z := 150.
Definition INVULNERABLE_AFTER_HIT : Z := 200.
Definition ATTACK_INTERVAL_MIN : Z := 3000.
Definition ATTACK_INTERVAL_MAX : Z := 6000.
Definition TELEGRAPH_DURATION : Z := 1500.
Definition ATTACK_DURATION : Z := 2000.
Definition RECOVERY_DURATION : Z := 1000.
Definition EVASION_WINDOW_START : Q := 7 # 10.
Definition EVASION_WINDOW_END : Q := 95 # 100.
End BOSS_CONFIG.

(** ** Attack definitions *)

Inductive ATTACK_PHASE : Set := IDLE | TELEGRAPH | EXECUTING | RECOVERY.

Record Attack : Set := mkAttack {
  id : string;
  name : string;
  type : string;
  bossLevel : option Z;
  damage : Z;
  telegraphDuration : Z;
  executeDuration : Z;
  recoveryDuration : Z;
  dangerZone : string;
  indicator : string;
  sound : string;
  evasionDirection : string;
  description : string;
}.

Definition SWEEPING_LASER : Attack :=
  mkAttack "sweeping_laser" "Sweeping Laser" "common" None 25 1200 1800 800
           "horizontal_sweep" "laser_charge" "laser_charge" "vertical"
           "A horizontal laser that sweeps across the arena".
Definition MISSILE_BARRAGE : Attack :=
  mkAttack "missile_barrage" "Missile Barrage" "common" None 15 1500 2500 1000
           "tracking_missiles" "lock_on" "missile_lock" "barrel_roll"
           "Multiple tracking missiles that require barrel roll to evade".

Definition STOMP_SHOCKWAVE : Attack :=
  mkAttack "stomp_shockwave" "Seismic Stomp" "unique" (Some 1) 40 1800 1200 1500
           "ground_ring" "leg_raise" "mechanical_charge" "up"
           "Boss raises leg and slams down creating a ground shockwave".
Definition DEBRIS_STORM : Attack :=
  mkAttack "debris_storm" "Debris Storm" "unique" (Some 2) 20 2000 3000 800
           "scattered_zones" "asteroid_gather" "rumble" "weave"
           "Boss pulls in asteroids and hurls them at player".
Definition CRYO_BLAST : Attack :=
  mkAttack "cryo_blast" "Cryo Blast" "unique" (Some 3) 35 1400 1600 1200
           "cone_forward" "frost_buildup" "ice_charge" "horizontal"
           "Boss charges and releases a freezing cone attack".
Definition SOLAR_FLARE : Attack :=
  mkAttack "solar_flare" "Solar Flare" "unique" (Some 4) 50 2200 1000 2000
           "full_arena_flash" "heat_buildup" "plasma_charge" "barrel_roll"
           "Massive arena-wide blast requiring perfect timing".
Definition TOXIC_SPRAY : Attack :=
  mkAttack "toxic_spray" "Toxic Spray" "unique" (Some 5) 30 1600 2200 900
           "spreading_cloud" "gas_buildup" "hiss" "retreat"
           "Boss releases expanding toxic cloud".
Definition SYSTEM_CORRUPTION : Attack :=
  mkAttack "system_corruption" "System Corruption" "unique" (Some 6) 45 1000 2800 1100
           "glitch_zones" "static_interference" "digital_screech" "random"
           "Creates glitching danger zones that shift unpredictably".
Definition ANDROSS_WRATH : Attack :=
  mkAttack "andross_wrath" "Andross's Wrath" "unique" (Some 7) 60 2500 3500 1500
           "multi_phase" "power_surge" "ultimate_charge" "complex"
           "Multi-phase devastating attack requiring multiple evasions".

(** The two catalog objects, as their entries in insertion order
    ([Object.entries] / [Object.values] enumerate in that order). *)
Definition COMMON_ATTACKS : list (string * Attack) :=
  [ ("SWEEPING_LASER", SWEEPING_LASER); ("MISSILE_BARRAGE", MISSILE_BARRAGE) ].

Definition UNIQUE_ATTACKS : list (string * Attack) :=
  [ ("STOMP_SHOCKWAVE", STOMP_SHOCKWAVE); ("DEBRIS_STORM", DEBRIS_STORM);
    ("CRYO_BLAST", CRYO_BLAST); ("SOLAR_FLARE", SOLAR_FLARE);
    ("TOXIC_SPRAY", TOXIC_SPRAY); ("SYSTEM_CORRUPTION", SYSTEM_CORRUPTION);
    ("ANDROSS_WRATH", ANDROSS_WRATH) ].

Definition Object_values {A : Type} (o : list (string * A)) : list A := map snd o.

(** [Object.fromEntries]: a later entry with the same key overwrites an
    earlier one. *)
Definition Object_fromEntries (es : list (string * Attack)) : gmap string Attack :=
  fold_left (fun m kv => <[ fst kv := snd kv ]> m) es ∅.

(** [{...a, ...b}]: the entries of [b] win over those of [a]. *)
Definition spread (a b : gmap string Attack) : gmap string Attack := b ∪ a.

Definition ATTACK_REGISTRY : gmap string Attack :=
  spread
    (Object_fromEntries (map (fun kv => (id (snd kv), snd kv)) COMMON_ATTACKS))
    (Object_fromEntries (map (fun kv => (id (snd kv), snd kv)) UNIQUE_ATTACKS)).

(** ** Utility functions *)

Record BossAttacks : Set := mkBossAttacks {
  common : list Attack;
  unique : option Attack;
  all : list Attack;
}.

(** [attack.bossLevel === bossLevel]; a common attack has no [bossLevel]. *)
Definition bossLevel_is (level : Z) (attack : Attack) : bool :=
  match bossLevel attack with
  | Some l => Z.eqb l level
  | None => false
  end.

Definition getAttacksForBoss (level : Z) : BossAttacks :=
  let commonAttacks := Object_values COMMON_ATTACKS in
  let uniqueAttack := List.find (bossLevel_is level) (Object_values UNIQUE_ATTACKS) in
  {| common := commonAttacks;
     unique := uniqueAttack;
     all := match uniqueAttack with
            | Some u => commonAttacks ++ [u]
            | None => commonAttacks
            end |}.

(** The body of the [for] loop of [selectRandomAttack]: [random] is decreased
    by [weights[i]] and the first attack at which it is [<= 0] is returned.
    When [weights] is shorter than [attacks], [weights[i]] is [undefined],
    [random] becomes [NaN] and no later test succeeds. *)
Fixpoint selectLoop {A : Type} (attacks : list A) (weights : list Q) (random : Q)
  : option A :=
  match attacks, weights with
  | a :: attacks', w :: weights' =>
      let random' := (random - w)%Q in
      if Qle_bool random' 0 then Some a else selectLoop attacks' weights' random'
  | _, _ => None
  end.

(** [attacks[attacks.length - 1]] *)
Definition lastAttack {A : Type} (attacks : list A) : option A :=
  nth_error attacks (length attacks - 1)%nat.

(** [selectRandomAttack(attacks, weights = null)]; [u] is the value of the
    one [Math.random()] call.  The result is [None] where JavaScript yields
    [undefined] (an empty [attacks]). *)
Definition selectRandomAttack {A : Type} (attacks : list A)
  (weights : option (list Q)) (u : Q) : option A :=
  match weights with
  | None =>
      nth_error attacks (Z.to_nat (Qfloor (u * inject_Z (Z.of_nat (length attacks)))%Q))
  | Some ws =>
      let totalWeight := fold_left Qplus ws 0%Q in
      let random := (u * totalWeight)%Q in
      match selectLoop attacks ws random with
      | Some a => Some a
      | None => lastAttack attacks
      end
  end.

(** [MathUtils.randFloat(low, high)] of three.js:
    [low + Math.random() * (high - low)]. *)
Definition randFloat (low high : Q) (u : Q) : Q := (low + u * (high - low))%Q.

Definition rageMultiplier (bossHealthPercent : Q) : Q :=
  (1 - bossHealthPercent * (3 # 10))%Q.

Definition calculateNextAttackDelay (bossHealthPercent : Q) (u : Q) : Q :=
  let baseDelay :=
    randFloat (inject_Z BOSS_CONFIG.ATTACK_INTERVAL_MIN)
              (inject_Z BOSS_CONFIG.ATTACK_INTERVAL_MAX) u in
  (baseDelay * rageMultiplier bossHealthPercent)%Q.

(** ** The hook [useBossAttackController]

    State ([useState]), refs ([useRef]) and the pending timeouts live across
    renders.  A function created during a render closes over the props and
    the state of that render, which are constants of that render:
    - [startAttack = useCallback(..., [playerIsInvulnerable, onPlayerHit])]
      is rebuilt only in a render in which one of the two changed; its
      timeouts read the [playerIsInvulnerable] of that render and call the
      [scheduleNextAttack] of that render;
    - [scheduleNextAttack = useCallback(..., [attacks, healthPercent,
      currentHP, startAttack])] is rebuilt whenever [startAttack] is, so the
      one that [startAttack] calls reads [currentHP], [healthPercent] and
      [attacks] of the render in which [startAttack] was built, and starts
      its attacks with that same [startAttack];
    - the effect with the empty dependency list calls the
      [scheduleNextAttack] of the first render;
    - [forceAttack = useCallback(..., [startAttack])] calls the latest
      [startAttack]; [damageBoss] updates the health with
      [setCurrentHP(prev => ...)] and reads no captured state.

    [Scope] holds the values such a closure sees.  [healthPercent] is
    [currentHP / maxHP] and [attacks] is [getAttacksForBoss(bossLevel)]. *)

Record Scope : Set := mkScope {
  sc_bossLevel : Z;
  sc_maxHP : Z;
  sc_playerIsInvulnerable : bool;
  sc_currentHP : Z;
}.

(** The functions handed to [setTimeout], each with the scope and the attack
    it closes over. *)
Inductive Callback : Set :=
| ClearHit                                     (* () => setIsHit(false) *)
| AttackTimer (sc : Scope)                     (* the timeout of scheduleNextAttack *)
| ToExecuting (sc : Scope) (attack : Attack)   (* first timeout of startAttack *)
| HitCheck (sc : Scope) (attack : Attack)      (* the hit check, hitCheckDelay *)
| ToRecovery (sc : Scope) (attack : Attack)
| ToIdle (sc : Scope) (attack : Attack).

Record Timer : Set := mkTimer {
  timer_id : nat;
  timer_due : Q;
  timer_cb : Callback;
}.

(** Calls made to the two callbacks the host passes in. *)
Inductive Call : Set :=
| onBossDefeated
| onPlayerHit (dmg : Z).

Record World : Set := mkWorld {
  (* useState *)
  currentHP : Z;
  phase : ATTACK_PHASE;
  currentAttack : option Attack;
  attackProgress : Q;
  isHit : bool;
  (* useRef *)
  attackTimerRef : option nat;
  phaseTimerRef : option nat;
  attackStartTimeRef : Q;
  currentPhaseDurationRef : Z;
  (* props of the latest render *)
  bossLevelProp : Z;
  maxHP : Z;
  playerIsInvulnerable : bool;
  (* the scope of the memoised startAttack *)
  startAttackScope : Scope;
  (* the host: clock, pending timeouts, Math.random, callbacks called so far *)
  now : Q;
  timers : list Timer;
  nextTimerId : nat;
  draws : list Q;
  calls : list Call;
}.

Definition set_currentHP (v : Z) (w : World) : World :=
  {| currentHP := v; phase := phase w; currentAttack := currentAttack w;
     attackProgress := attackProgress w; isHit := isHit w;
     attackTimerRef := attackTimerRef w; phaseTimerRef := phaseTimerRef w;
     attackStartTimeRef := attackStartTimeRef w;
     currentPhaseDurationRef := currentPhaseDurationRef w;
     bossLevelProp := bossLevelProp w; maxHP := maxHP w;
     playerIsInvulnerable := playerIsInvulnerable w;
     startAttackScope := startAttackScope w; now := now w; timers := timers w;
     nextTimerId := nextTimerId w; draws := draws w; calls := calls w |}.
Definition set_phase (v : ATTACK_PHASE) (w : World) : World :=
  {| currentHP := currentHP w; phase := v; currentAttack := currentAttack w;
     attackProgress := attackProgress w; isHit := isHit w;
     attackTimerRef := attackTimerRef w; phaseTimerRef := phaseTimerRef w;
     attackStartTimeRef := attackStartTimeRef w;
     currentPhaseDurationRef := currentPhaseDurationRef w;
     bossLevelProp := bossLevelProp w; maxHP := maxHP w;
     playerIsInvulnerable := playerIsInvulnerable w;
     startAttackScope := startAttackScope w; now := now w; timers := timers w;
     nextTimerId := nextTimerId w; draws := draws w; calls := calls w |}.
Definition set_currentAttack (v : option Attack) (w : World) : World :=
  {| currentHP := currentHP w; phase := phase w; currentAttack := v;
     attackProgress := attackProgress w; isHit := isHit w;
     attackTimerRef := attackTimerRef w; phaseTimerRef := phaseTimerRef w;
     attackStartTimeRef := attackStartTimeRef w;
     currentPhaseDurationRef := currentPhaseDurationRef w;
     bossLevelProp := bossLevelProp w; maxHP := maxHP w;
     playerIsInvulnerable := playerIsInvulnerable w;
     startAttackScope := startAttackScope w; now := now w; timers := timers w;
     nextTimerId := nextTimerId w; draws := draws w; calls := calls w |}.
Definition set_attackProgress (v : Q) (w : World) : World :=
  {| currentHP := currentHP w; phase := phase w; currentAttack := currentAttack w;
     attackProgress := v; isHit := isHit w; attackTimerRef := attackTimerRef w;
     phaseTimerRef := phaseTimerRef w; attackStartTimeRef := attackStartTimeRef w;
     currentPhaseDurationRef := currentPhaseDurationRef w;
     bossLevelProp := bossLevelProp w; maxHP := maxHP w;
     playerIsInvulnerable := playerIsInvulnerable w;
     startAttackScope := startAttackScope w; now := now w; timers := timers w;
     nextTimerId := nextTimerId w; draws := draws w; calls := calls w |}.
Definition set_isHit (v : bool) (w : World) : World :=
  {| currentHP := currentHP w; phase := phase w; currentAttack := currentAttack w;
     attackProgress := attackProgress w; isHit := v;
     attackTimerRef := attackTimerRef w; phaseTimerRef := phaseTimerRef w;
     attackStartTimeRef := attackStartTimeRef w;
     currentPhaseDurationRef := currentPhaseDurationRef w;
     bossLevelProp := bossLevelProp w; maxHP := maxHP w;
     playerIsInvulnerable := playerIsInvulnerable w;
     startAttackScope := startAttackScope w; now := now w; timers := timers w;
     nextTimerId := nextTimerId w; draws := draws w; calls := calls w |}.
Definition set_attackTimerRef (v : option nat) (w : World) : World :=
  {| currentHP := currentHP w; phase := phase w; currentAttack := currentAttack w;
     attackProgress := attackProgress w; isHit := isHit w; attackTimerRef := v;
     phaseTimerRef := phaseTimerRef w; attackStartTimeRef := attackStartTimeRef w;
     currentPhaseDurationRef := currentPhaseDurationRef w;
     bossLevelProp := bossLevelProp w; maxHP := maxHP w;
     playerIsInvulnerable := playerIsInvulnerable w;
     startAttackScope := startAttackScope w; now := now w; timers := timers w;
     nextTimerId := nextTimerId w; draws := draws w; calls := calls w |}.
Definition set_phaseTimerRef (v : option nat) (w : World) : World :=
  {| currentHP := currentHP w; phase := phase w; currentAttack := currentAttack w;
     attackProgress := attackProgress w; isHit := isHit w;
     attackTimerRef := attackTimerRef w; phaseTimerRef := v;
     attackStartTimeRef := attackStartTimeRef w;
     currentPhaseDurationRef := currentPhaseDurationRef w;
     bossLevelProp := bossLevelProp w; maxHP := maxHP w;
     playerIsInvulnerable := playerIsInvulnerable w;
     startAttackScope := startAttackScope w; now := now w; timers := timers w;
     nextTimerId := nextTimerId w; draws := draws w; calls := calls w |}.
Definition set_attackStartTimeRef (v : Q) (w : World) : World :=
  {| currentHP := currentHP w; phase := phase w; currentAttack := currentAttack w;
     attackProgress := attackProgress w; isHit := isHit w;
     attackTimerRef := attackTimerRef w; phaseTimerRef := phaseTimerRef w;
     attackStartTimeRef := v; currentPhaseDurationRef := currentPhaseDurationRef w;
     bossLevelProp := bossLevelProp w; maxHP := maxHP w;
     playerIsInvulnerable := playerIsInvulnerable w;
     startAttackScope := startAttackScope w; now := now w; timers := timers w;
     nextTimerId := nextTimerId w; draws := draws w; calls := calls w |}.
Definition set_currentPhaseDurationRef (v : Z) (w : World) : World :=
  {| currentHP := currentHP w; phase := phase w; currentAttack := currentAttack w;
     attackProgress := attackProgress w; isHit := isHit w;
     attackTimerRef := attackTimerRef w; phaseTimerRef := phaseTimerRef w;
     attackStartTimeRef := attackStartTimeRef w; currentPhaseDurationRef := v;
     bossLevelProp := bossLevelProp w; maxHP := maxHP w;
     playerIsInvulnerable := playerIsInvulnerable w;
     startAttackScope := startAttackScope w; now := now w; timers := timers w;
     nextTimerId := nextTimerId w; draws := draws w; calls := calls w |}.
Definition set_playerIsInvulnerable (v : bool) (w : World) : World :=
  {| currentHP := currentHP w; phase := phase w; currentAttack := currentAttack w;
     attackProgress := attackProgress w; isHit := isHit w;
     attackTimerRef := attackTimerRef w; phaseTimerRef := phaseTimerRef w;
     attackStartTimeRef := attackStartTimeRef w;
     currentPhaseDurationRef := currentPhaseDurationRef w;
     bossLevelProp := bossLevelProp w; maxHP := maxHP w; playerIsInvulnerable := v;
     startAttackScope := startAttackScope w; now := now w; timers := timers w;
     nextTimerId := nextTimerId w; draws := draws w; calls := calls w |}.
Definition set_startAttackScope (v : Scope) (w : World) : World :=
  {| currentHP := currentHP w; phase := phase w; currentAttack := currentAttack w;
     attackProgress := attackProgress w; isHit := isHit w;
     attackTimerRef := attackTimerRef w; phaseTimerRef := phaseTimerRef w;
     attackStartTimeRef := attackStartTimeRef w;
     currentPhaseDurationRef := currentPhaseDurationRef w;
     bossLevelProp := bossLevelProp w; maxHP := maxHP w;
     playerIsInvulnerable := playerIsInvulnerable w; startAttackScope := v;
     now := now w; timers := timers w; nextTimerId := nextTimerId w; draws := draws w;
     calls := calls w |}.
Definition set_now (v : Q) (w : World) : World :=
  {| currentHP := currentHP w; phase := phase w; currentAttack := currentAttack w;
     attackProgress := attackProgress w; isHit := isHit w;
     attackTimerRef := attackTimerRef w; phaseTimerRef := phaseTimerRef w;
     attackStartTimeRef := attackStartTimeRef w;
     currentPhaseDurationRef := currentPhaseDurationRef w;
     bossLevelProp := bossLevelProp w; maxHP := maxHP w;
     playerIsInvulnerable := playerIsInvulnerable w;
     startAttackScope := startAttackScope w; now := v; timers := timers w;
     nextTimerId := nextTimerId w; draws := draws w; calls := calls w |}.
Definition set_timers (v : list Timer) (w : World) : World :=
  {| currentHP := currentHP w; phase := phase w; currentAttack := currentAttack w;
     attackProgress := attackProgress w; isHit := isHit w;
     attackTimerRef := attackTimerRef w; phaseTimerRef := phaseTimerRef w;
     attackStartTimeRef := attackStartTimeRef w;
     currentPhaseDurationRef := currentPhaseDurationRef w;
     bossLevelProp := bossLevelProp w; maxHP := maxHP w;
     playerIsInvulnerable := playerIsInvulnerable w;
     startAttackScope := startAttackScope w; now := now w; timers := v;
     nextTimerId := nextTimerId w; draws := draws w; calls := calls w |}.
Definition set_nextTimerId (v : nat) (w : World) : World :=
  {| currentHP := currentHP w; phase := phase w; currentAttack := currentAttack w;
     attackProgress := attackProgress w; isHit := isHit w;
     attackTimerRef := attackTimerRef w; phaseTimerRef := phaseTimerRef w;
     attackStartTimeRef := attackStartTimeRef w;
     currentPhaseDurationRef := currentPhaseDurationRef w;
     bossLevelProp := bossLevelProp w; maxHP := maxHP w;
     playerIsInvulnerable := playerIsInvulnerable w;
     startAttackScope := startAttackScope w; now := now w; timers := timers w;
     nextTimerId := v; draws := draws w; calls := calls w |}.
Definition set_draws (v : list Q) (w : World) : World :=
  {| currentHP := currentHP w; phase := phase w; currentAttack := currentAttack w;
     attackProgress := attackProgress w; isHit := isHit w;
     attackTimerRef := attackTimerRef w; phaseTimerRef := phaseTimerRef w;
     attackStartTimeRef := attackStartTimeRef w;
     currentPhaseDurationRef := currentPhaseDurationRef w;
     bossLevelProp := bossLevelProp w; maxHP := maxHP w;
     playerIsInvulnerable := playerIsInvulnerable w;
     startAttackScope := startAttackScope w; now := now w; timers := timers w;
     nextTimerId := nextTimerId w; draws := v; calls := calls w |}.
Definition set_calls (v : list Call) (w : World) : World :=
  {| currentHP := currentHP w; phase := phase w; currentAttack := currentAttack w;
     attackProgress := attackProgress w; isHit := isHit w;
     attackTimerRef := attackTimerRef w; phaseTimerRef := phaseTimerRef w;
     attackStartTimeRef := attackStartTimeRef w;
     currentPhaseDurationRef := currentPhaseDurationRef w;
     bossLevelProp := bossLevelProp w; maxHP := maxHP w;
     playerIsInvulnerable := playerIsInvulnerable w;
     startAttackScope := startAttackScope w; now := now w; timers := timers w;
     nextTimerId := nextTimerId w; draws := draws w; calls := v |}.

(** *** The host: timeouts, the clock, randomness, callbacks *)

Definition setTimeout (cb : Callback) (delay : Q) (w : World) : nat * World :=
  let tid := nextTimerId w in
  let t := mkTimer tid (now w + Qmax delay 0)%Q cb in
  (tid, set_nextTimerId (S tid) (set_timers (timers w ++ [t]) w)).

Definition clearTimeout (ref : option nat) (w : World) : World :=
  match ref with
  | Some tid =>
      set_timers (List.filter (fun t => negb (Nat.eqb (timer_id t) tid)) (timers w)) w
  | None => w
  end.

(** [Math.random()]: the next draw of the host. *)
Definition Math_random (w : World) : Q * World :=
  match draws w with
  | u :: rest => (u, set_draws rest w)
  | [] => (0%Q, w)
  end.

Definition call (c : Call) (w : World) : World := set_calls (calls w ++ [c]) w.

(** *** The functions of the hook *)

(** [currentHP / maxHP] of the scope ([Qdiv] gives [0] for [maxHP = 0], where
    JavaScript gives [NaN] or [Infinity]). *)
Definition healthPercent (sc : Scope) : Q :=
  (inject_Z (sc_currentHP sc) / inject_Z (sc_maxHP sc))%Q.

Definition damageBoss (amount : Z) (w : World) : World :=
  let w := set_isHit true w in
  let w := snd (setTimeout ClearHit (inject_Z BOSS_CONFIG.DAMAGE_FLASH_DURATION) w) in
  let newHP := Z.max 0 (currentHP w - amount) in
  let w := if newHP <=? 0 then call onBossDefeated w else w in
  set_currentHP newHP w.

Definition startAttack (sc : Scope) (attack : Attack) (w : World) : World :=
  let w := set_currentAttack (Some attack) w in
  let w := set_phase TELEGRAPH w in
  let w := set_attackStartTimeRef (now w) w in
  let w := set_currentPhaseDurationRef (telegraphDuration attack) w in
  let (tid, w) := setTimeout (ToExecuting sc attack)
                             (inject_Z (telegraphDuration attack)) w in
  set_phaseTimerRef (Some tid) w.

Definition scheduleNextAttack (sc : Scope) (w : World) : World :=
  if sc_currentHP sc <=? 0 then w
  else
    let (u, w) := Math_random w in
    let delay := calculateNextAttackDelay (healthPercent sc) u in
    let (tid, w) := setTimeout (AttackTimer sc) delay w in
    set_attackTimerRef (Some tid) w.

Definition attackWeights (sc : Scope) (attackPool : list Attack) : list Q :=
  map (fun atk =>
         if String.eqb (type atk) "unique"
            && negb (Qle_bool (1 # 2) (healthPercent sc))
         then 2%Q else 1%Q)
      attackPool.

(** [forceAttack].  The read [ATTACK_REGISTRY[attackId]] is followed on the
    own entries of the registry.  [ATTACK_REGISTRY] is a plain object, so for
    a name it inherits from [Object.prototype] the read is not [undefined]
    either ([propertyRead] below) and the guard is entered with a value that
    is not an attack; the hook is not followed there, and the statements that
    depend on it leave those names out ([plainOp]). *)
Definition forceAttack (attackId : string) (w : World) : World :=
  match ATTACK_REGISTRY !! attackId with
  | Some attack =>
      let w := clearTimeout (attackTimerRef w) w in
      let w := clearTimeout (phaseTimerRef w) w in
      startAttack (startAttackScope w) attack w
  | None => w
  end.

(** What a timeout does when it fires.  The attack pool always holds the
    common attacks, so the attack timer always selects an attack (lemma
    [attackPool_selects]). *)
Definition runCallback (cb : Callback) (w : World) : World :=
  match cb with
  | ClearHit => set_isHit false w
  | AttackTimer sc =>
      let attackPool := all (getAttacksForBoss (sc_bossLevel sc)) in
      let weights := attackWeights sc attackPool in
      let (u, w') := Math_random w in
      match selectRandomAttack attackPool (Some weights) u with
      | Some selectedAttack => startAttack sc selectedAttack w'
      | None => w'
      end
  | ToExecuting sc attack =>
      let w := set_phase EXECUTING w in
      let w := set_attackStartTimeRef (now w) w in
      let w := set_currentPhaseDurationRef (executeDuration attack) w in
      let hitCheckDelay := (inject_Z (executeDuration attack) * (3 # 10))%Q in
      let w := snd (setTimeout (HitCheck sc attack) hitCheckDelay w) in
      let (tid, w) := setTimeout (ToRecovery sc attack)
                                 (inject_Z (executeDuration attack)) w in
      set_phaseTimerRef (Some tid) w
  | HitCheck sc attack =>
      if negb (sc_playerIsInvulnerable sc) then call (onPlayerHit (damage attack)) w
      else w
  | ToRecovery sc attack =>
      let w := set_phase RECOVERY w in
      let w := set_attackStartTimeRef (now w) w in
      let w := set_currentPhaseDurationRef (recoveryDuration attack) w in
      let (tid, w) := setTimeout (ToIdle sc attack)
                                 (inject_Z (recoveryDuration attack)) w in
      set_phaseTimerRef (Some tid) w
  | ToIdle sc attack =>
      let w := set_phase IDLE w in
      let w := set_currentAttack None w in
      let w := set_attackProgress 0%Q w in
      scheduleNextAttack sc w
  end.

(** [useFrame]: the progress of the current phase. *)
Definition frame (w : World) : World :=
  match phase w with
  | IDLE => w
  | _ =>
      if 0 <? currentPhaseDurationRef w then
        let elapsed := (now w - attackStartTimeRef w)%Q in
        set_attackProgress
          (Qmin 1 (elapsed / inject_Z (currentPhaseDurationRef w)))%Q w
      else w
  end.

(** A render with the prop [playerIsInvulnerable] at [invulnerable];
    [newOnPlayerHit] tells whether the host passes a new [onPlayerHit]
    function.  When either dependency of [startAttack] changed, the memoised
    [startAttack] is rebuilt in the scope of this render. *)
Definition renderWith (invulnerable newOnPlayerHit : bool) (w : World) : World :=
  if Bool.eqb invulnerable (playerIsInvulnerable w) && negb newOnPlayerHit then w
  else
    set_startAttackScope
      (mkScope (bossLevelProp w) (maxHP w) invulnerable (currentHP w))
      (set_playerIsInvulnerable invulnerable w).

(** The first render and its effect, which calls [scheduleNextAttack]. *)
Definition initial (level hp : Z) (invulnerable : bool) (rnd : list Q) : World :=
  {| currentHP := hp; phase := IDLE; currentAttack := None; attackProgress := 0%Q;
     isHit := false;
     attackTimerRef := None; phaseTimerRef := None;
     attackStartTimeRef := 0%Q; currentPhaseDurationRef := 0;
     bossLevelProp := level; maxHP := hp; playerIsInvulnerable := invulnerable;
     startAttackScope := mkScope level hp invulnerable hp;
     now := 0%Q; timers := []; nextTimerId := 1%nat; draws := rnd; calls := [] |}.

Definition mount (level hp : Z) (invulnerable : bool) (rnd : list Q) : World :=
  let w := initial level hp invulnerable rnd in
  scheduleNextAttack (startAttackScope w) w.

(** The cleanup of the effects: the two timeouts are cleared.  That React
    drops the state updates of an unmounted component is not modelled; the
    statements that depend on it leave out what follows an unmount
    ([mountedOp]). *)
Definition unmount (w : World) : World :=
  clearTimeout (phaseTimerRef w) (clearTimeout (attackTimerRef w) w).

(** *** Time *)

Definition earlier (a b : Timer) : bool :=
  negb (Qle_bool (timer_due b) (timer_due a))
  || (Qeq_bool (timer_due a) (timer_due b) && Nat.leb (timer_id a) (timer_id b)).

(** The pending timeout that fires first: the least due time, and among equal
    due times the one armed first. *)
Fixpoint nextTimer (ts : list Timer) : option Timer :=
  match ts with
  | [] => None
  | t :: ts' =>
      match nextTimer ts' with
      | Some t' => if earlier t t' then Some t else Some t'
      | None => Some t
      end
  end.

(** The timeout [t] fires: it leaves the pending list, the clock is at its
    due time, its function runs. *)
Definition fire (t : Timer) (w : World) : World :=
  let w := clearTimeout (Some (timer_id t)) w in
  let w := set_now (Qmax (now w) (timer_due t)) w in
  runCallback (timer_cb t) w.

(** Time passes until [until]: the timeouts due by then fire in order.  At
    most [fuel] of them fire. *)
Fixpoint elapse (fuel : nat) (until : Q) (w : World) : World :=
  match fuel with
  | O => w
  | S fuel' =>
      match nextTimer (timers w) with
      | Some t =>
          if Qle_bool (timer_due t) until then elapse fuel' until (fire t w)
          else set_now (Qmax (now w) until) w
      | None => set_now (Qmax (now w) until) w
      end
  end.

Definition wait (fuel : nat) (ms : Q) (w : World) : World :=
  elapse fuel (now w + ms)%Q w.

(** What can happen to a mounted hook. *)
Inductive Op : Set :=
| OpDamageBoss (amount : Z)
| OpForceAttack (attackId : string)
| OpRender (invulnerable newOnPlayerHit : bool)
| OpFrame
| OpWait (fuel : nat) (ms : Q)
| OpFire (tid : nat)
| OpUnmount.

Definition applyOp (o : Op) (w : World) : World :=
  match o with
  | OpDamageBoss amount => damageBoss amount w
  | OpForceAttack attackId => forceAttack attackId w
  | OpRender invulnerable newOnPlayerHit => renderWith invulnerable newOnPlayerHit w
  | OpFrame => frame w
  | OpWait fuel ms => wait fuel ms w
  | OpFire tid =>
      match List.find (fun t => Nat.eqb (timer_id t) tid) (timers w) with
      | Some t => fire t w
      | None => w
      end
  | OpUnmount => unmount w
  end.

Definition runOps (ops : list Op) (w : World) : World :=
  fold_left (fun w o => applyOp o w) ops w.

(** ** Notions used in the statements *)

(** Every attack of the two catalog objects. *)
Definition catalog : list Attack :=
  (Object_values COMMON_ATTACKS ++ Object_values UNIQUE_ATTACKS)%list.

Definition isUnique (a : Attack) : bool := String.eqb (type a) "unique".

(** A unique attack is registered for [level]. *)
Definition registeredFor (level : Z) : bool :=
  existsb (bossLevel_is level) (Object_values UNIQUE_ATTACKS).

(** [weights.reduce((sum, w) => sum + w, 0)] *)
Definition totalWeight (ws : list Q) : Q := fold_left Qplus ws 0%Q.

(** The cumulative weight of the attack at index [i]: [w_0 + ... + w_i]. *)
Fixpoint cumulative (ws : list Q) (i : nat) : Q :=
  match ws with
  | [] => 0%Q
  | w :: ws' =>
      match i with
      | O => w
      | S i' => (w + cumulative ws' i')%Q
      end
  end.

(** [res] is the first attack of [attacks] whose cumulative weight is in
    relation [reaches] with the draw [u * totalWeight]: "exceeds the draw" is
    [reaches := Qlt], "is at least the draw" is [reaches := Qle]. *)
Definition selectsFirst {A : Type} (reaches : Q -> Q -> Prop)
  (attacks : list A) (ws : list Q) (u : Q) (res : option A) : Prop :=
  exists i a,
    res = Some a /\ nth_error attacks i = Some a /\
    reaches (u * totalWeight ws)%Q (cumulative ws i) /\
    forall j, (j < i)%nat -> ~ reaches (u * totalWeight ws)%Q (cumulative ws j).

(** The two health fields of a state. *)
Definition health (w : World) : Z * Z := (currentHP w, maxHP w).

Definition damageAmountsNonneg (ops : list Op) : Prop :=
  forall amount, In (OpDamageBoss amount) ops -> 0 <= amount.

Definition isDefeat (c : Call) : bool :=
  match c with
  | onBossDefeated => true
  | onPlayerHit _ => false
  end.

(** How often [onBossDefeated] has been called. *)
Definition defeats (w : World) : nat := length (List.filter isDefeat (calls w)).

(** The [damageBoss] operations of [ops] that leave the health at [0], the
    health being [hp] before [ops]. *)
Fixpoint defeatingHits (ops : list Op) (hp : Z) : nat :=
  match ops with
  | [] => 0%nat
  | OpDamageBoss amount :: ops' =>
      let hp' := Z.max 0 (hp - amount) in
      ((if (hp' =? 0)%Z then 1 else 0) + defeatingHits ops' hp')%nat
  | _ :: ops' => defeatingHits ops' hp
  end.

(** A hit check of [attack] is pending. *)
Definition pendingHitCheck (attack : Attack) (w : World) : bool :=
  existsb (fun t => match timer_cb t with
                    | HitCheck _ a => String.eqb (id a) (id attack)
                    | _ => false
                    end)
          (timers w).

(** The boss of level 1 with 1000 HP, "stomp_shockwave" forced at mount, 100 ms
    into [EXECUTING] (telegraph 1800 ms, execute 1200 ms, hit check due at
    360 ms). *)
Definition stompExecuting : World :=
  wait 5 1900 (forceAttack "stomp_shockwave" (mount 1 1000 false [1 # 2]%Q)).

(** ** The components of [BossFightScene] around the hook *)

(** The state of a [WeakPoint]: its [hitFlash] and the due times of its
    pending [setHitFlash(false)] timeouts. *)
Record WeakPointState : Set := mkWeakPointState {
  hitFlash : bool;
  flashTimeouts : list Q;
}.

(** [handleHit] of [WeakPoint], with its props [isVulnerable] and [onHit]. *)
Definition handleHit (isVulnerable : bool) (onHit : World -> World)
  (s : WeakPointState) (w : World) : WeakPointState * World :=
  if negb isVulnerable then (s, w)
  else
    let s := mkWeakPointState
               true
               (flashTimeouts s ++
                [(now w + inject_Z BOSS_CONFIG.DAMAGE_FLASH_DURATION)%Q]) in
    (s, onHit w).

(** [handleWeakPointHit] of [BossFightScene]. *)
Definition handleWeakPointHit (w : World) : World := damageBoss 50 w.

(** The prop [isVulnerable={phase === ATTACK_PHASE.RECOVERY}] that
    [BossFightScene] gives to each [WeakPoint]. *)
Definition weakPointIsVulnerable (w : World) : bool :=
  match phase w with
  | RECOVERY => true
  | _ => false
  end.

(** A click on a weak point of the scene. *)
Definition clickWeakPoint (sw : WeakPointState * World) : WeakPointState * World :=
  handleHit (weakPointIsVulnerable (snd sw)) handleWeakPointHit (fst sw) (snd sw).

(** [BossHPBar]: [healthPercent], [isLowHealth], [isCritical] and the colour
    of the border of the bar. *)
Definition barHealthPercent (hp maxhp : Z) : Q :=
  (inject_Z hp / inject_Z maxhp * 100)%Q.

Definition isLowHealth (hp maxhp : Z) : bool :=
  negb (Qle_bool 25 (barHealthPercent hp maxhp)).

Definition isCritical (hp maxhp : Z) : bool :=
  negb (Qle_bool 10 (barHealthPercent hp maxhp)).

Definition barBorderColor (hp maxhp : Z) : string :=
  if isCritical hp maxhp then "#ff0000"
  else if isLowHealth hp maxhp then "#ff8800"
  else "#ff4444".

(** [isInWindow] of [EvasionPrompt]. *)
Definition isInWindow (progress : Q) : bool :=
  Qle_bool BOSS_CONFIG.EVASION_WINDOW_START progress
  && Qle_bool progress BOSS_CONFIG.EVASION_WINDOW_END.

(** ** The timeouts of the attack cycle *)

Definition isAttackTimer (t : Timer) : bool :=
  match timer_cb t with
  | AttackTimer _ => true
  | _ => false
  end.

Definition isPhaseTimer (t : Timer) : bool :=
  match timer_cb t with
  | ToExecuting _ _ | ToRecovery _ _ | ToIdle _ _ => true
  | _ => false
  end.

(** The timeouts that drive the cycle: the attack timer and the three phase
    transitions.  The others (hit check, end of the hit flash) are armed
    without keeping their handle. *)
Definition isCycleTimer (t : Timer) : bool := isAttackTimer t || isPhaseTimer t.

(** The cycle [IDLE -> TELEGRAPH -> EXECUTING -> RECOVERY -> IDLE]. *)
Definition nextPhase (p : ATTACK_PHASE) : ATTACK_PHASE :=
  match p with
  | IDLE => TELEGRAPH
  | TELEGRAPH => EXECUTING
  | EXECUTING => RECOVERY
  | RECOVERY => IDLE
  end.

(** What a pending timeout says about the state it is pending in: its handle
    is below the next one; a cycle timeout is the one its ref holds and is
    pending in the phase that armed it, for the current attack. *)
Definition timerOk (w : World) (t : Timer) : Prop :=
  (timer_id t < nextTimerId w)%nat /\
  match timer_cb t with
  | ClearHit => True
  | HitCheck _ a => In a catalog
  | AttackTimer _ =>
      attackTimerRef w = Some (timer_id t) /\ phase w = IDLE
  | ToExecuting _ a =>
      phaseTimerRef w = Some (timer_id t) /\ phase w = TELEGRAPH /\
      currentAttack w = Some a
  | ToRecovery _ a =>
      phaseTimerRef w = Some (timer_id t) /\ phase w = EXECUTING /\
      currentAttack w = Some a
  | ToIdle _ a =>
      phaseTimerRef w = Some (timer_id t) /\ phase w = RECOVERY /\
      currentAttack w = Some a
  end.

Definition callOk (c : Call) : Prop :=
  match c with
  | onBossDefeated => True
  | onPlayerHit d => exists a, In a catalog /\ damage a = d
  end.

(** The invariant of the hook. *)
Record Consistent (w : World) : Prop := mkConsistent {
  timers_ok : Forall (timerOk w) (timers w);
  timers_nodup : List.NoDup (map timer_id (timers w));
  idle_iff : phase w = IDLE <-> currentAttack w = None;
  attack_ok : forall a, currentAttack w = Some a -> In a catalog;
  calls_ok : Forall callOk (calls w);
  clock_ok : (attackStartTimeRef w <= now w)%Q;
  progress_ok : (0 <= attackProgress w <= 1)%Q;
}.

(** No cycle timeout is pending. *)
Definition quiet (w : World) : Prop :=
  forall t, In t (timers w) -> isCycleTimer t = false.

(** The operations other than [forceAttack]. *)
Definition notForce (o : Op) : bool :=
  match o with
  | OpForceAttack _ => false
  | _ => true
  end.

(** ** Reading the registry as a plain object *)

(** The names a plain object inherits from [Object.prototype]. *)
Definition Object_prototype_names : list string :=
  [ "constructor"; "__defineGetter__"; "__defineSetter__"; "hasOwnProperty";
    "__lookupGetter__"; "__lookupSetter__"; "isPrototypeOf";
    "propertyIsEnumerable"; "toString"; "valueOf"; "__proto__";
    "toLocaleString" ].

Definition inheritedName (s : string) : bool :=
  existsb (String.eqb s) Object_prototype_names.




(** An operation that does not force an inherited name. *)
Definition plainOp (o : Op) : bool :=
  match o with
  | OpForceAttack attackId => negb (inheritedName attackId)
  | _ => true
  end.

(** An operation other than the unmount. *)
Definition mountedOp (o : Op) : bool :=
  match o with
  | OpUnmount => false
  | _ => true
  end.

(** * Properties *)

(** ** Attack catalog *)

Lemma registeredFor_spec (level : Z) :
  registeredFor level = true <->
  exists u, In u (Object_values UNIQUE_ATTACKS) /\ bossLevel u = Some level.
Proof.
  unfold registeredFor. rewrite existsb_exists. split.
  - intros [u [Hin Hl]]. exists u. split; [exact Hin|].
    unfold bossLevel_is in Hl. destruct (bossLevel u) as [l|]; [|discriminate].
    apply Z.eqb_eq in Hl. now subst.
  - intros [u [Hin Hl]]. exists u. split; [exact Hin|].
    unfold bossLevel_is. rewrite Hl. apply Z.eqb_refl.
Qed.

Lemma find_registeredFor (level : Z) :
  registeredFor level =
  match List.find (bossLevel_is level) (Object_values UNIQUE_ATTACKS) with
  | Some _ => true
  | None => false
  end.
Proof.
  unfold registeredFor.
  induction (Object_values UNIQUE_ATTACKS) as [|u us IH]; simpl; [reflexivity|].
  destruct (bossLevel_is level u); simpl; [reflexivity|exact IH].
Qed.

Lemma unique_attacks_are_unique :
  forallb isUnique (Object_values UNIQUE_ATTACKS) = true.
Proof. reflexivity. Qed.

Lemma common_attacks_are_common :
  forallb (fun a => negb (isUnique a)) (Object_values COMMON_ATTACKS) = true.
Proof. reflexivity. Qed.

Lemma commons_not_unique (c : Attack) :
  In c (Object_values COMMON_ATTACKS) -> ~ In c (Object_values UNIQUE_ATTACKS).
Proof.
  cbn. intros [<-|[<-|[]]] H;
    repeat (destruct H as [H|H]; [discriminate|]); exact H.
Qed.

(** C9: [getAttacksForBoss(level).all] holds every common attack (none of
    which is a unique attack).  When [UNIQUE_ATTACKS] has an attack whose
    [bossLevel] is [level], [all] is the common attacks followed by one such
    attack, which is the only unique attack in it; when it has none, [all] is
    the common attacks alone, with no unique attack, and the call is answered
    like any other. *)
Theorem getAttacksForBoss_all (level : Z) :
  let r := getAttacksForBoss level in
  let commons := Object_values COMMON_ATTACKS in
  let uniques := Object_values UNIQUE_ATTACKS in
  (forall c, In c commons -> In c (all r) /\ ~ In c uniques) /\
  ((exists u, In u uniques /\ bossLevel u = Some level) ->
   exists u, In u uniques /\ bossLevel u = Some level /\
             unique r = Some u /\ all r = (commons ++ [u])%list /\
             (forall v, In v (all r) -> In v uniques -> v = u) /\
             length (List.filter isUnique (all r)) = 1%nat) /\
  ((~ exists u, In u uniques /\ bossLevel u = Some level) ->
   unique r = None /\ all r = commons /\
   (forall v, In v (all r) -> ~ In v uniques) /\
   length (List.filter isUnique (all r)) = 0%nat).
Proof.
  cbv zeta. unfold getAttacksForBoss. cbn [all unique].
  destruct (List.find (bossLevel_is level) (Object_values UNIQUE_ATTACKS))
    as [u|] eqn:Hfind.
  - apply find_some in Hfind. destruct Hfind as [Hin Hlvl].
    assert (Hl : bossLevel u = Some level).
    { unfold bossLevel_is in Hlvl. destruct (bossLevel u); [|discriminate].
      apply Z.eqb_eq in Hlvl. now subst. }
    assert (Hu : isUnique u = true).
    { pose proof unique_attacks_are_unique as Hall.
      rewrite forallb_forall in Hall. now apply Hall. }
    split; [|split].
    + intros c Hc. split; [apply in_or_app; now left|now apply commons_not_unique].
    + intros _. exists u. repeat split; try assumption.
      * intros v Hv Hvu. apply in_app_or in Hv. destruct Hv as [Hc|[<-|[]]];
          [|reflexivity]. now apply commons_not_unique in Hc.
      * rewrite List.filter_app. cbn. rewrite Hu. reflexivity.
    + intros Hno. exfalso. apply Hno. exists u. auto.
  - split; [|split].
    + intros c Hc. split; [exact Hc|now apply commons_not_unique].
    + intros [u [Hin Hl]]. exfalso.
      pose proof (find_none _ _ Hfind u Hin) as Hf.
      unfold bossLevel_is in Hf. rewrite Hl, Z.eqb_refl in Hf. discriminate.
    + intros _. repeat split.
      intros v Hv. now apply commons_not_unique.
Qed.

(** ** Difficulty curve *)

Lemma rageMultiplier_bounds (h : Q) :
  (0 <= h <= 1)%Q -> (7 # 10 <= rageMultiplier h <= 1)%Q.
Proof. unfold rageMultiplier. intros [H0 H1]. split; lra. Qed.

(** C2: [calculateNextAttackDelay] scales the base delay
    [min + u * (max - min)] by [1 - bossHealthPercent * 0.3].  Evaluated at
    the two ends, the factor is 0.7 at full health ([bossHealthPercent = 1])
    and 1 at zero health: the delay for the middle draw is 3150 ms at full
    health and 4500 ms, the midpoint of [3000, 6000], at zero health. *)
Theorem calculateNextAttackDelay_ends :
  (rageMultiplier 1 == 7 # 10)%Q /\
  (rageMultiplier 0 == 1)%Q /\
  (forall u, calculateNextAttackDelay 1 u == (7 # 10) * randFloat 3000 6000 u)%Q /\
  (forall u, calculateNextAttackDelay 0 u == randFloat 3000 6000 u)%Q /\
  (calculateNextAttackDelay 1 (1 # 2) == 3150)%Q /\
  (calculateNextAttackDelay 0 (1 # 2) == 4500)%Q.
Proof.
  unfold calculateNextAttackDelay, rageMultiplier, randFloat,
    BOSS_CONFIG.ATTACK_INTERVAL_MIN, BOSS_CONFIG.ATTACK_INTERVAL_MAX.
  repeat split; intros; try reflexivity; try (unfold inject_Z; lra).
Qed.

(** ** Attack selector *)

Lemma fold_left_Qplus_acc (ws : list Q) :
  forall a, (fold_left Qplus ws a == a + fold_left Qplus ws 0)%Q.
Proof.
  induction ws as [|w ws IH]; intros a; simpl.
  - lra.
  - pose proof (IH (a + w)%Q). pose proof (IH (0 + w)%Q). lra.
Qed.

Lemma totalWeight_cons (w : Q) (ws : list Q) :
  (totalWeight (w :: ws) == w + totalWeight ws)%Q.
Proof.
  unfold totalWeight. simpl.
  pose proof (fold_left_Qplus_acc ws (0 + w)%Q). lra.
Qed.

Lemma totalWeight_pos (ws : list Q) :
  ws <> [] -> Forall (fun w => (0 < w)%Q) ws -> (0 < totalWeight ws)%Q.
Proof.
  intros Hne Hpos. induction Hpos as [|w ws Hw Hws IH]; [congruence|].
  rewrite totalWeight_cons. destruct ws as [|w' ws'].
  - unfold totalWeight. simpl. lra.
  - assert (0 < totalWeight (w' :: ws'))%Q by (apply IH; discriminate). lra.
Qed.

(** The loop returns the first attack at which the running [random] has
    dropped to [0] or below, that is the first whose cumulative weight is at
    least the initial [random]. *)
Lemma selectLoop_first {A : Type} (attacks : list A) :
  forall (ws : list Q) (r : Q),
    length ws = length attacks -> attacks <> [] -> (r <= totalWeight ws)%Q ->
    exists i a,
      selectLoop attacks ws r = Some a /\ nth_error attacks i = Some a /\
      (r <= cumulative ws i)%Q /\
      forall j, (j < i)%nat -> ~ (r <= cumulative ws j)%Q.
Proof.
  induction attacks as [|a attacks' IH]; intros ws r Hlen Hne Hr; [congruence|].
  destruct ws as [|w ws']; [discriminate|].
  simpl in Hlen. injection Hlen as Hlen. rewrite totalWeight_cons in Hr.
  simpl. destruct (Qle_bool (r - w) 0) eqn:Hle.
  - apply Qle_bool_iff in Hle. exists 0%nat, a. simpl.
    repeat split; try reflexivity; [lra | intros j Hj; lia].
  - assert (Hgt : ~ (r - w <= 0)%Q).
    { intros Hc. apply Qle_bool_iff in Hc. congruence. }
    assert (Hne' : attacks' <> []).
    { intros ->. destruct ws'; [|discriminate].
      unfold totalWeight in Hr. simpl in Hr. lra. }
    destruct (IH ws' (r - w)%Q Hlen Hne') as [i [b [Hsel [Hnth [Hcum Hfirst]]]]];
      [lra|].
    exists (S i), b. simpl. repeat split; try assumption; [lra|].
    intros j Hj Hc. destruct j as [|j].
    + destruct ws'; simpl in Hc; lra.
    + apply (Hfirst j); [lia|]. lra.
Qed.

Lemma lastAttack_In {A : Type} (attacks : list A) :
  attacks <> [] -> exists a, lastAttack attacks = Some a /\ In a attacks.
Proof.
  intros Hne. unfold lastAttack.
  destruct (nth_error attacks (length attacks - 1)) as [a|] eqn:Hnth.
  - exists a. split; [reflexivity|]. eapply nth_error_In; eassumption.
  - apply nth_error_None in Hnth. destruct attacks; [congruence|]. simpl in Hnth. lia.
Qed.

Lemma selectLoop_In {A : Type} (attacks : list A) :
  forall ws r a, selectLoop attacks ws r = Some a -> In a attacks.
Proof.
  induction attacks as [|b attacks' IH]; intros ws r a H; [discriminate|].
  destruct ws as [|w ws']; [discriminate|]. simpl in H.
  destruct (Qle_bool (r - w) 0).
  - injection H as ->. now left.
  - right. eapply IH; eassumption.
Qed.

(** Whatever the weights and the draw, a non-empty list yields one of its
    attacks: the one the loop selects, else the last one. *)
Lemma selectRandomAttack_never_fails {A : Type} (attacks : list A) (ws : list Q) (u : Q) :
  attacks <> [] ->
  exists a, selectRandomAttack attacks (Some ws) u = Some a /\ In a attacks.
Proof.
  intros Hne. unfold selectRandomAttack.
  destruct (selectLoop attacks ws (u * fold_left Qplus ws 0)%Q) as [a|] eqn:Hsel.
  - exists a. split; [reflexivity|]. eapply selectLoop_In; eassumption.
  - now apply lastAttack_In.
Qed.

Lemma selectRandomAttack_fallback {A : Type} (attacks : list A) (ws : list Q) (u : Q) :
  selectLoop attacks ws (u * totalWeight ws)%Q = None ->
  selectRandomAttack attacks (Some ws) u = lastAttack attacks.
Proof. unfold selectRandomAttack, totalWeight. intros ->. reflexivity. Qed.

Lemma selectRandomAttack_single {A : Type} (a : A) (w u : Q) :
  selectRandomAttack [a] (Some [w]) u = Some a.
Proof.
  unfold selectRandomAttack. simpl.
  destruct (Qle_bool (u * (0 + w) - w)%Q 0%Q); reflexivity.
Qed.

(** C8 (as the code has it): for a non-empty attack list, positive weights of
    the same length and a draw [u] in [0, 1), the weighted selection returns
    the first attack whose cumulative weight is at least the draw
    [u * totalWeight] (the loop tests [random <= 0] after subtracting); for
    any weights it returns an attack of the list, the last one when the loop
    selects none; a single attack is returned whatever its weight. *)
Theorem selectRandomAttack_weighted {A : Type} (attacks : list A) (ws : list Q) (u : Q) :
  attacks <> [] ->
  length ws = length attacks ->
  Forall (fun w => (0 < w)%Q) ws ->
  (0 <= u < 1)%Q ->
  selectsFirst Qle attacks ws u (selectRandomAttack attacks (Some ws) u) /\
  (forall ws' u',
      (exists a, selectRandomAttack attacks (Some ws') u' = Some a /\ In a attacks) /\
      (selectLoop attacks ws' (u' * totalWeight ws')%Q = None ->
       selectRandomAttack attacks (Some ws') u' = lastAttack attacks)) /\
  (forall a w' u', attacks = [a] -> selectRandomAttack attacks (Some [w']) u' = Some a).
Proof.
  intros Hne Hlen Hpos [Hu0 Hu1].
  assert (Htot : (0 < totalWeight ws)%Q).
  { apply totalWeight_pos; [|exact Hpos]. intros ->. destruct attacks; [congruence|discriminate]. }
  split; [|split].
  - destruct (selectLoop_first attacks ws (u * totalWeight ws)%Q Hlen Hne)
      as [i [a [Hsel [Hnth [Hcum Hfirst]]]]]; [nra|].
    exists i, a. unfold selectRandomAttack. fold (totalWeight ws).
    rewrite Hsel. repeat split; assumption.
  - intros ws' u'. split.
    + now apply selectRandomAttack_never_fails.
    + apply selectRandomAttack_fallback.
  - intros a w' u' ->. apply selectRandomAttack_single.
Qed.

Lemma selectRandomAttack_weighted_witness :
  selectsFirst Qle [SWEEPING_LASER; MISSILE_BARRAGE; STOMP_SHOCKWAVE]
               [1; 1; 2]%Q (3 # 4)
               (selectRandomAttack [SWEEPING_LASER; MISSILE_BARRAGE; STOMP_SHOCKWAVE]
                                   (Some [1; 1; 2]%Q) (3 # 4)).
Proof.
  apply (selectRandomAttack_weighted
           [SWEEPING_LASER; MISSILE_BARRAGE; STOMP_SHOCKWAVE] [1; 1; 2]%Q (3 # 4)).
  - discriminate.
  - reflexivity.
  - repeat constructor.
  - split; [discriminate | reflexivity].
Defined.

(** C8, as stated, fails on the boundary: with the two common attacks, weights
    [1; 1] and the draw [Math.random() = 0.5], the scaled draw is [1], the
    loop returns the first attack, and its cumulative weight [1] does not
    exceed the draw. *)
Lemma selectRandomAttack_not_first_exceeding :
  ~ selectsFirst Qlt [SWEEPING_LASER; MISSILE_BARRAGE] [1; 1]%Q (1 # 2)
      (selectRandomAttack [SWEEPING_LASER; MISSILE_BARRAGE] (Some [1; 1]%Q) (1 # 2)).
Proof.
  intros [i [a [Hres [Hnth [Hlt _]]]]].
  vm_compute in Hres. injection Hres as <-.
  destruct i as [|[|i]].
  - vm_compute in Hlt. discriminate.
  - simpl in Hnth. discriminate.
  - simpl in Hnth. destruct i; discriminate.
Qed.

(** ** Boss health *)

(** C6: for every prior health and every amount [>= 0], [damageBoss(amount)]
    leaves [max(0, health - amount)]; the result is never negative, and it
    is at most the prior health (a health value being [>= 0]). *)
Theorem damageBoss_health (amount : Z) (w : World) :
  0 <= amount ->
  currentHP (damageBoss amount w) = Z.max 0 (currentHP w - amount) /\
  0 <= currentHP (damageBoss amount w) /\
  (0 <= currentHP w -> currentHP (damageBoss amount w) <= currentHP w).
Proof.
  intros Hamount. unfold damageBoss. cbn.
  destruct (Z.max 0 (currentHP w - amount) <=? 0); cbn; lia.
Qed.

Lemma damageBoss_health_witness :
  currentHP (damageBoss 50 (mount 1 1000 false [])) = Z.max 0 (1000 - 50) /\
  0 <= currentHP (damageBoss 50 (mount 1 1000 false [])) /\
  (0 <= 1000 -> currentHP (damageBoss 50 (mount 1 1000 false [])) <= 1000).
Proof. apply (damageBoss_health 50 (mount 1 1000 false [])). lia. Defined.

(** The clamp at [0] holds for every amount, also a negative one. *)
Lemma damageBoss_currentHP (amount : Z) (w : World) :
  currentHP (damageBoss amount w) = Z.max 0 (currentHP w - amount).
Proof.
  unfold damageBoss. cbn.
  destruct (Z.max 0 (currentHP w - amount) <=? 0); reflexivity.
Qed.

Lemma damageBoss_maxHP (amount : Z) (w : World) :
  maxHP (damageBoss amount w) = maxHP w.
Proof.
  unfold damageBoss. cbn.
  destruct (Z.max 0 (currentHP w - amount) <=? 0); reflexivity.
Qed.

(** ** The defeat callback *)

Lemma damageBoss_calls (amount : Z) (w : World) :
  calls (damageBoss amount w) =
    (calls w ++ (if Z.max 0 (currentHP w - amount) =? 0 then [onBossDefeated] else []))%list.
Proof.
  unfold damageBoss. cbn.
  destruct (Z.max 0 (currentHP w - amount) <=? 0) eqn:Hle; cbn.
  - apply Z.leb_le in Hle.
    replace (Z.max 0 (currentHP w - amount)) with 0 by lia. reflexivity.
  - apply Z.leb_gt in Hle.
    destruct (Z.max 0 (currentHP w - amount) =? 0) eqn:Heq.
    + apply Z.eqb_eq in Heq. lia.
    + now rewrite app_nil_r.
Qed.

(** C1 (as the code has it): [damageBoss] calls [onBossDefeated] once in every
    call that leaves health at [0], and in no other call: the callback fires
    when health first reaches [0], and again in each later call made with
    health at [0] and an amount [>= 0]. *)
Theorem damageBoss_calls_onBossDefeated (amount : Z) (w : World) :
  calls (damageBoss amount w) =
    (calls w ++ (if currentHP (damageBoss amount w) =? 0 then [onBossDefeated] else []))%list
  /\ (currentHP w = 0 -> 0 <= amount ->
      calls (damageBoss amount w) = (calls w ++ [onBossDefeated])%list).
Proof.
  rewrite damageBoss_currentHP, damageBoss_calls. split; [reflexivity|].
  intros Hzero Hamount.
  replace (Z.max 0 (currentHP w - amount)) with 0 by lia. reflexivity.
Qed.

(** C1, as stated, fails: a second [damageBoss] on a boss already at health
    [0] calls [onBossDefeated] a second time. *)
Lemma damageBoss_defeated_twice :
  let w1 := damageBoss 1000 (mount 1 1000 false []) in
  currentHP w1 = 0 /\
  calls w1 = [onBossDefeated] /\
  calls (damageBoss 50 w1) = [onBossDefeated; onBossDefeated].
Proof. cbv zeta. repeat split. Qed.

(** ** Forced attacks and the scheduler *)



Lemma forceAttack_registered (attackId : string) (attack : Attack) (w : World) :
  ATTACK_REGISTRY !! attackId = Some attack ->
  phase (forceAttack attackId w) = TELEGRAPH /\
  currentAttack (forceAttack attackId w) = Some attack.
Proof. intros Hsome. unfold forceAttack. rewrite Hsome. split; reflexivity. Qed.

(** When the health seen by its closure is [0] or below, [scheduleNextAttack]
    returns at once: the [Recovery -> Idle] transition of such a closure arms
    nothing.  [forceAttack] makes no health test. *)
Lemma scheduleNextAttack_defeated (sc : Scope) (attack : Attack) (w : World) :
  sc_currentHP sc <= 0 ->
  scheduleNextAttack sc w = w /\
  (let w' := runCallback (ToIdle sc attack) w in
   phase w' = IDLE /\ currentAttack w' = None /\
   timers w' = timers w /\ attackTimerRef w' = attackTimerRef w) /\
  (forall attackId forced, ATTACK_REGISTRY !! attackId = Some forced ->
     phase (forceAttack attackId w) = TELEGRAPH /\
     currentAttack (forceAttack attackId w) = Some forced).
Proof.
  intros Hhp. apply Z.leb_le in Hhp.
  split; [|split].
  - unfold scheduleNextAttack. rewrite Hhp. reflexivity.
  - cbn. unfold scheduleNextAttack. rewrite Hhp. repeat split.
  - intros attackId forced. apply forceAttack_registered.
Qed.

Lemma scheduleNextAttack_defeated_witness :
  scheduleNextAttack (mkScope 1 1000 false 0) (initial 1 1000 false [])
  = initial 1 1000 false [].
Proof.
  apply (scheduleNextAttack_defeated (mkScope 1 1000 false 0) STOMP_SHOCKWAVE
           (initial 1 1000 false [])).
  simpl. lia.
Defined.

(** A boss at health [0], idle, still enters [TELEGRAPH] when an attack is
    forced. *)
Lemma forceAttack_after_defeat :
  let w := damageBoss 1000 (mount 1 1000 false []) in
  currentHP w = 0 /\ phase w = IDLE /\
  phase (forceAttack "stomp_shockwave" w) = TELEGRAPH /\
  currentAttack (forceAttack "stomp_shockwave" w) = Some STOMP_SHOCKWAVE.
Proof. cbv zeta. repeat split. Qed.

(** The health test is made when the timer is armed, not when it fires: the
    timer armed at mount starts an attack although the boss was defeated in
    the meantime. *)
Lemma attack_timer_fires_after_defeat :
  let w := damageBoss 1000 (mount 0 1000 false [1 # 2; 0]%Q) in
  let w' := wait 5 3150 w in
  currentHP w = 0 /\ phase w = IDLE /\
  currentHP w' = 0 /\ phase w' = TELEGRAPH /\
  currentAttack w' = Some SWEEPING_LASER.
Proof. cbv zeta. vm_compute. repeat split. Qed.

(** C5: what the code does when the boss is defeated during a cycle.  The
    [scheduleNextAttack] reached at the end of a cycle is the one of the
    render in which [startAttack] was built, and its guard [currentHP <= 0]
    reads the health of that render.  Here the boss is brought to [0] during
    [RECOVERY] and [onBossDefeated] is called; the cycle ends in [IDLE], the
    guard passes on the stale health 1000, a new attack timer is armed, and
    3150 ms later a fresh [TELEGRAPH] begins with the health at [0]. *)
Theorem stale_health_reschedules :
  let w := forceAttack "stomp_shockwave" (mount 1 1000 false [1 # 2; 1 # 2; 0]%Q) in
  let w := wait 5 3000 w in
  let inRecovery := damageBoss 1000 w in
  let idle := wait 5 1500 inRecovery in
  let later := wait 5 3150 idle in
  phase w = RECOVERY /\
  currentHP inRecovery = 0 /\ calls inRecovery = [onPlayerHit 40; onBossDefeated] /\
  phase idle = IDLE /\ currentHP idle = 0 /\
  (exists tid, attackTimerRef idle = Some tid /\
               existsb (fun t => Nat.eqb (timer_id t) tid) (timers idle) = true) /\
  phase later = TELEGRAPH /\ currentHP later = 0.
Proof.
  cbv zeta. vm_compute. repeat split. eexists. split; reflexivity.
Qed.

(** ** The health invariant over the operations of the hook *)

Lemma clearTimeout_health (ref : option nat) (w : World) :
  health (clearTimeout ref w) = health w.
Proof. destruct ref; reflexivity. Qed.

Lemma startAttack_health (sc : Scope) (attack : Attack) (w : World) :
  health (startAttack sc attack w) = health w.
Proof. reflexivity. Qed.

Lemma scheduleNextAttack_health (sc : Scope) (w : World) :
  health (scheduleNextAttack sc w) = health w.
Proof.
  unfold scheduleNextAttack. destruct (sc_currentHP sc <=? 0); [reflexivity|].
  unfold Math_random. destruct (draws w); reflexivity.
Qed.

Lemma runCallback_health (cb : Callback) (w : World) :
  health (runCallback cb w) = health w.
Proof.
  destruct cb as [|sc|sc a|sc a|sc a|sc a]; cbn [runCallback].
  - reflexivity.
  - unfold Math_random. destruct (draws w);
      destruct (selectRandomAttack _ _ _); reflexivity.
  - reflexivity.
  - destruct (negb (sc_playerIsInvulnerable sc)); reflexivity.
  - reflexivity.
  - rewrite scheduleNextAttack_health. reflexivity.
Qed.

Lemma fire_health (t : Timer) (w : World) : health (fire t w) = health w.
Proof. unfold fire. rewrite runCallback_health. reflexivity. Qed.

Lemma elapse_health (fuel : nat) (until : Q) :
  forall w, health (elapse fuel until w) = health w.
Proof.
  induction fuel as [|fuel IH]; intros w; simpl; [reflexivity|].
  destruct (nextTimer (timers w)) as [t|]; [|reflexivity].
  destruct (Qle_bool (timer_due t) until); [|reflexivity].
  rewrite IH. apply fire_health.
Qed.

Lemma forceAttack_health (attackId : string) (w : World) :
  health (forceAttack attackId w) = health w.
Proof.
  unfold forceAttack. destruct (ATTACK_REGISTRY !! attackId); [|reflexivity].
  rewrite startAttack_health, !clearTimeout_health. reflexivity.
Qed.

Lemma renderWith_health (b f : bool) (w : World) :
  health (renderWith b f w) = health w.
Proof.
  unfold renderWith.
  destruct (Bool.eqb b (playerIsInvulnerable w) && negb f); reflexivity.
Qed.

Lemma frame_health (w : World) : health (frame w) = health w.
Proof.
  unfold frame. destruct (phase w); try reflexivity;
    destruct (0 <? currentPhaseDurationRef w); reflexivity.
Qed.

(** Only [damageBoss] writes the health; no operation writes [maxHP]. *)
Lemma applyOp_health (o : Op) (w : World) :
  health (applyOp o w) =
  match o with
  | OpDamageBoss amount => (Z.max 0 (currentHP w - amount), maxHP w)
  | _ => health w
  end.
Proof.
  destruct o as [amount|attackId|b f| |fuel ms|tid|]; cbn [applyOp].
  - unfold health. now rewrite damageBoss_currentHP, damageBoss_maxHP.
  - apply forceAttack_health.
  - apply renderWith_health.
  - apply frame_health.
  - apply elapse_health.
  - destruct (List.find _ (timers w)); [apply fire_health|reflexivity].
  - unfold unmount. now rewrite !clearTimeout_health.
Qed.

Lemma runOps_health (ops : list Op) :
  forall w,
    0 <= currentHP w ->
    let w' := runOps ops w in
    maxHP w' = maxHP w /\ 0 <= currentHP w' /\
    (damageAmountsNonneg ops -> currentHP w <= maxHP w -> currentHP w' <= maxHP w').
Proof.
  induction ops as [|o ops IH]; intros w Hw; cbn [runOps fold_left].
  - repeat split; auto.
  - pose proof (applyOp_health o w) as Ho.
    assert (Hmax : maxHP (applyOp o w) = maxHP w).
    { apply (f_equal snd) in Ho. destruct o; exact Ho. }
    assert (Hcur : currentHP (applyOp o w) =
                   match o with
                   | OpDamageBoss amount => Z.max 0 (currentHP w - amount)
                   | _ => currentHP w
                   end).
    { apply (f_equal fst) in Ho. destruct o; exact Ho. }
    assert (Hpos : 0 <= currentHP (applyOp o w)).
    { rewrite Hcur. destruct o; lia. }
    destruct (IH (applyOp o w) Hpos) as [IH1 [IH2 IH3]]. fold (runOps ops (applyOp o w)).
    split; [congruence|]. split; [exact IH2|].
    intros Hamounts Hle. apply IH3.
    + intros amount Hin. apply Hamounts. now right.
    + rewrite Hmax, Hcur. destruct o as [amount| | | | | |]; try exact Hle.
      assert (0 <= amount) by (apply Hamounts; now left). lia.
Qed.

Lemma mount_health (level hp : Z) (invulnerable : bool) (rnd : list Q) :
  health (mount level hp invulnerable rnd) = (hp, hp).
Proof. unfold mount. rewrite scheduleNextAttack_health. reflexivity. Qed.

(** C7 (as the code has it): in every state reached from the mount of an
    encounter with [maxHP >= 0], by any operations, [maxHP] is the value fixed
    at the start and [0 <= health]; [health <= maxHP] holds as long as every
    [damageBoss] amount is [>= 0] (a negative amount adds to the health, and
    nothing clamps it from above). *)
Theorem health_invariant (level hp : Z) (invulnerable : bool) (rnd : list Q)
  (ops : list Op) :
  0 <= hp ->
  let w := runOps ops (mount level hp invulnerable rnd) in
  maxHP w = hp /\ 0 <= currentHP w /\
  (damageAmountsNonneg ops -> currentHP w <= maxHP w).
Proof.
  intros Hhp. cbv zeta.
  pose proof (mount_health level hp invulnerable rnd) as Hm. unfold health in Hm.
  injection Hm as Hcur Hmax.
  destruct (runOps_health ops (mount level hp invulnerable rnd)) as [H1 [H2 H3]];
    [lia|].
  split; [congruence|]. split; [exact H2|].
  intros Hamounts. apply H3; [exact Hamounts|lia].
Qed.

Lemma health_invariant_witness :
  let w := runOps [OpForceAttack "stomp_shockwave"; OpWait 5 3000; OpDamageBoss 50;
                   OpDamageBoss (-20); OpWait 5 1500]
                  (mount 1 1000 false [1 # 2; 1 # 3]%Q) in
  maxHP w = 1000 /\ 0 <= currentHP w /\
  (damageAmountsNonneg [OpForceAttack "stomp_shockwave"; OpWait 5 3000; OpDamageBoss 50;
                        OpDamageBoss (-20); OpWait 5 1500] -> currentHP w <= maxHP w).
Proof.
  apply (health_invariant 1 1000 false [1 # 2; 1 # 3]%Q
           [OpForceAttack "stomp_shockwave"; OpWait 5 3000; OpDamageBoss 50;
            OpDamageBoss (-20); OpWait 5 1500]).
  lia.
Defined.

(** C7, as stated, fails: [damageBoss] with a negative amount lifts the health
    above [maxHP]. *)
Lemma damageBoss_negative_exceeds_maxHP :
  let w := damageBoss (-100) (mount 1 1000 false []) in
  currentHP w = 1100 /\ maxHP w = 1000 /\ maxHP w < currentHP w.
Proof. cbv zeta. repeat split. Qed.

(** ** Forced attacks and the hit check *)

(** Entering [EXECUTING] arms two timeouts: the hit check, due
    [0.3 * executeDuration] later, whose handle is dropped, and the transition
    to [RECOVERY], whose handle goes to [phaseTimerRef]. *)
Lemma toExecuting_timers (sc : Scope) (attack : Attack) (w : World) :
  let w' := runCallback (ToExecuting sc attack) w in
  phase w' = EXECUTING /\
  timers w' =
    (timers w ++
     [ mkTimer (nextTimerId w)
               (now w + Qmax (inject_Z (executeDuration attack) * (3 # 10)) 0)%Q
               (HitCheck sc attack);
       mkTimer (S (nextTimerId w))
               (now w + Qmax (inject_Z (executeDuration attack)) 0)%Q
               (ToRecovery sc attack) ])%list /\
  phaseTimerRef w' = Some (S (nextTimerId w)) /\
  attackTimerRef w' = attackTimerRef w.
Proof. cbv zeta. cbn. rewrite <- app_assoc. repeat split. Qed.

Lemma clearTimeout_keeps (ref : option nat) (t : Timer) (w : World) :
  In t (timers w) -> ref <> Some (timer_id t) -> In t (timers (clearTimeout ref w)).
Proof.
  intros Hin Hne. destruct ref as [tid|]; [|exact Hin]. cbn.
  apply filter_In. split; [exact Hin|].
  apply negb_true_iff, Nat.eqb_neq. congruence.
Qed.

Lemma clearTimeout_removes (tid : nat) (t : Timer) (w : World) :
  In t (timers (clearTimeout (Some tid) w)) -> timer_id t <> tid /\ In t (timers w).
Proof.
  cbn. intros Hin. apply filter_In in Hin. destruct Hin as [Hin Hne].
  apply negb_true_iff, Nat.eqb_neq in Hne. auto.
Qed.

(** [forceAttack] clears the timeouts held by [attackTimerRef] and
    [phaseTimerRef] and arms the telegraph timeout of the forced attack. *)
Lemma forceAttack_timers (attackId : string) (attack : Attack) (w : World) :
  ATTACK_REGISTRY !! attackId = Some attack ->
  timers (forceAttack attackId w) =
    (timers (clearTimeout (phaseTimerRef w) (clearTimeout (attackTimerRef w) w)) ++
     [ mkTimer (nextTimerId w)
               (now w + Qmax (inject_Z (telegraphDuration attack)) 0)%Q
               (ToExecuting (startAttackScope w) attack) ])%list.
Proof.
  intros Hreg. unfold forceAttack. rewrite Hreg.
  destruct (attackTimerRef w), (phaseTimerRef w) eqn:Hp; cbn; rewrite ?Hp; reflexivity.
Qed.

(** Only those two are cleared: any other pending timeout, such as a hit
    check, whose handle no ref holds, stays pending. *)
Lemma forceAttack_keeps_other_timers (attackId : string) (t : Timer) (w : World) :
  In t (timers w) ->
  attackTimerRef w <> Some (timer_id t) ->
  phaseTimerRef w <> Some (timer_id t) ->
  In t (timers (forceAttack attackId w)).
Proof.
  intros Hin Ha Hp.
  destruct (ATTACK_REGISTRY !! attackId) as [attack|] eqn:Hreg.
  - rewrite (forceAttack_timers attackId attack w Hreg).
    apply in_or_app. left.
    apply clearTimeout_keeps; [apply clearTimeout_keeps|]; assumption.
  - unfold forceAttack. rewrite Hreg. exact Hin.
Qed.

(** The hit check tests the [playerIsInvulnerable] of the scope its closure
    was created in; the prop of the latest render plays no part. *)
Lemma hitCheck_calls (sc : Scope) (attack : Attack) (w : World) :
  calls (runCallback (HitCheck sc attack) w) =
    (calls w ++ (if sc_playerIsInvulnerable sc then []
                 else [onPlayerHit (damage attack)]))%list.
Proof.
  cbn. destruct (sc_playerIsInvulnerable sc); cbn; [now rewrite app_nil_r|reflexivity].
Qed.

(** C3: what the code does when an attack is forced during [EXECUTING]: the
    new attack enters [TELEGRAPH] and the transition to [RECOVERY] of the
    abandoned one is cleared, but its hit check stays pending, and 260 ms
    later [onPlayerHit(40)] is called for the abandoned "stomp_shockwave". *)
Theorem forceAttack_keeps_hit_check :
  let forced := forceAttack "sweeping_laser" stompExecuting in
  let later := wait 5 260 forced in
  (phase stompExecuting = EXECUTING /\
   currentAttack stompExecuting = Some STOMP_SHOCKWAVE /\
   calls stompExecuting = [] /\
   pendingHitCheck STOMP_SHOCKWAVE stompExecuting = true) /\
  (phase forced = TELEGRAPH /\
   currentAttack forced = Some SWEEPING_LASER /\
   pendingHitCheck STOMP_SHOCKWAVE forced = true /\
   length (timers forced) = 2%nat) /\
  (phase later = TELEGRAPH /\
   currentAttack later = Some SWEEPING_LASER /\
   (now later == 2160)%Q /\
   calls later = [onPlayerHit 40]).
Proof. cbv zeta. vm_compute. repeat split. Qed.

(** C4: what the code does when the player becomes invulnerable after the
    attack began and before the hit check: the check still calls
    [onPlayerHit(40)], since it reads the flag of the render in which
    [startAttack] was built.  An attack started by the timer armed at mount
    reads the flag of the first render, however long the player has been
    invulnerable. *)
Theorem hitCheck_reads_stale_flag :
  (let rolled := renderWith true false stompExecuting in
   let later := wait 5 260 rolled in
   playerIsInvulnerable rolled = true /\ calls rolled = [] /\
   playerIsInvulnerable later = true /\ (now later == 2160)%Q /\
   phase later = EXECUTING /\ calls later = [onPlayerHit 40]) /\
  (let w := renderWith true false (mount 0 1000 false [1 # 2; 0]%Q) in
   let telegraph := wait 5 3150 w in
   let later := wait 5 (1200 + 540) telegraph in
   playerIsInvulnerable w = true /\
   phase telegraph = TELEGRAPH /\ currentAttack telegraph = Some SWEEPING_LASER /\
   playerIsInvulnerable later = true /\ phase later = EXECUTING /\
   calls later = [onPlayerHit 25]).
Proof. cbv zeta. vm_compute. repeat split. Qed.

(** ** The registry and the attack pool *)

(** [ATTACK_REGISTRY[s]] is the catalog attack whose [id] is [s], if any. *)
Lemma registry_lookup (s : string) :
  ATTACK_REGISTRY !! s = List.find (fun a => String.eqb (id a) s) catalog.
Proof.
  unfold catalog.
  cbn [map fst snd Object_values COMMON_ATTACKS UNIQUE_ATTACKS app List.find].
  cbn [id SWEEPING_LASER MISSILE_BARRAGE STOMP_SHOCKWAVE DEBRIS_STORM CRYO_BLAST
       SOLAR_FLARE TOXIC_SPRAY SYSTEM_CORRUPTION ANDROSS_WRATH].
  repeat (match goal with
          | |- context [String.eqb ?k s] =>
              destruct (String.eqb_spec k s) as [<-|?]; [reflexivity|]
          end).
  unfold ATTACK_REGISTRY, spread, Object_fromEntries.
  cbn [map fold_left fst snd Object_values COMMON_ATTACKS UNIQUE_ATTACKS].
  cbn [id SWEEPING_LASER MISSILE_BARRAGE STOMP_SHOCKWAVE DEBRIS_STORM CRYO_BLAST
       SOLAR_FLARE TOXIC_SPRAY SYSTEM_CORRUPTION ANDROSS_WRATH].
  rewrite lookup_union, !lookup_insert, !lookup_empty.
  repeat (case_decide; [congruence|]). reflexivity.
Qed.

(** [ATTACK_REGISTRY] has no entry for [s] exactly when no attack of the
    catalog has [s] as its [id]. *)
Lemma registry_lookup_None (s : string) :
  ATTACK_REGISTRY !! s = None <-> forall a, In a catalog -> id a <> s.
Proof.
  rewrite registry_lookup. split.
  - intros Hnone a Hin Heq.
    apply (find_none _ _ Hnone) in Hin. cbn in Hin.
    apply String.eqb_neq in Hin. contradiction.
  - intros Hall.
    destruct (List.find (fun a => String.eqb (id a) s) catalog) as [a|] eqn:Hfind;
      [|reflexivity].
    apply find_some in Hfind. destruct Hfind as [Hin Heq].
    apply String.eqb_eq in Heq. now apply Hall in Hin.
Qed.

(** The pool handed to [selectRandomAttack] by the attack timer is never
    empty, so an attack is always selected. *)
Lemma attackPool_selects (sc : Scope) (u : Q) :
  let attackPool := all (getAttacksForBoss (sc_bossLevel sc)) in
  exists a, selectRandomAttack attackPool (Some (attackWeights sc attackPool)) u = Some a
            /\ In a attackPool.
Proof.
  cbv zeta. apply selectRandomAttack_never_fails.
  unfold getAttacksForBoss. cbn [all].
  destruct (List.find _ _); discriminate.
Qed.

(** ** The calls of [onBossDefeated] over the operations of the hook *)

Lemma clearTimeout_calls (ref : option nat) (w : World) :
  calls (clearTimeout ref w) = calls w.
Proof. destruct ref; reflexivity. Qed.

Lemma scheduleNextAttack_calls (sc : Scope) (w : World) :
  calls (scheduleNextAttack sc w) = calls w.
Proof.
  unfold scheduleNextAttack. destruct (sc_currentHP sc <=? 0); [reflexivity|].
  unfold Math_random. destruct (draws w); reflexivity.
Qed.

Lemma runCallback_defeats (cb : Callback) (w : World) :
  defeats (runCallback cb w) = defeats w.
Proof.
  unfold defeats. destruct cb as [|sc|sc a|sc a|sc a|sc a]; cbn [runCallback].
  - reflexivity.
  - unfold Math_random. destruct (draws w);
      destruct (selectRandomAttack _ _ _); reflexivity.
  - reflexivity.
  - destruct (sc_playerIsInvulnerable sc); cbn; [reflexivity|].
    rewrite List.filter_app, length_app. cbn. lia.
  - reflexivity.
  - rewrite scheduleNextAttack_calls. reflexivity.
Qed.

Lemma fire_defeats (t : Timer) (w : World) : defeats (fire t w) = defeats w.
Proof. unfold fire. rewrite runCallback_defeats. reflexivity. Qed.

Lemma elapse_defeats (fuel : nat) (until : Q) :
  forall w, defeats (elapse fuel until w) = defeats w.
Proof.
  induction fuel as [|fuel IH]; intros w; simpl; [reflexivity|].
  destruct (nextTimer (timers w)) as [t|]; [|reflexivity].
  destruct (Qle_bool (timer_due t) until); [|reflexivity].
  rewrite IH. apply fire_defeats.
Qed.

(** Only [damageBoss] calls [onBossDefeated]. *)
Lemma applyOp_defeats (o : Op) (w : World) :
  defeats (applyOp o w) =
  match o with
  | OpDamageBoss amount =>
      (defeats w + (if (Z.max 0 (currentHP w - amount) =? 0)%Z then 1 else 0))%nat
  | _ => defeats w
  end.
Proof.
  destruct o as [amount|attackId|b f| |fuel ms|tid|]; cbn [applyOp].
  - unfold defeats.
    rewrite damageBoss_calls.
    rewrite List.filter_app, length_app.
    destruct (Z.max 0 (currentHP w - amount) =? 0); reflexivity.
  - unfold forceAttack. destruct (ATTACK_REGISTRY !! attackId); [|reflexivity].
    unfold defeats. cbn. now rewrite !clearTimeout_calls.
  - unfold renderWith.
    destruct (Bool.eqb b (playerIsInvulnerable w) && negb f); reflexivity.
  - unfold frame. destruct (phase w); try reflexivity;
      destruct (0 <? currentPhaseDurationRef w); reflexivity.
  - apply elapse_defeats.
  - destruct (List.find _ (timers w)); [apply fire_defeats|reflexivity].
  - unfold unmount, defeats. now rewrite !clearTimeout_calls.
Qed.

Lemma runOps_defeats_from (ops : list Op) :
  forall w, defeats (runOps ops w) = (defeats w + defeatingHits ops (currentHP w))%nat.
Proof.
  induction ops as [|o ops IH]; intros w; cbn [runOps fold_left defeatingHits].
  - lia.
  - fold (runOps ops (applyOp o w)). rewrite IH, applyOp_defeats.
    pose proof (applyOp_health o w) as Ho. apply (f_equal fst) in Ho. cbn in Ho.
    destruct o; rewrite Ho; cbn [fst health]; lia.
Qed.

Lemma mount_defeats (level hp : Z) (invulnerable : bool) (rnd : list Q) :
  defeats (mount level hp invulnerable rnd) = 0%nat.
Proof. unfold defeats, mount. rewrite scheduleNextAttack_calls. reflexivity. Qed.

(** Over a run of the mounted hook (no unmount among the operations, and no
    [forceAttack] of a name inherited from [Object.prototype]), started at
    health [hp]: [onBossDefeated] is called once for each [damageBoss] that
    leaves the health at [0], and by nothing else, whatever timeouts fire,
    attacks are forced, renders and frames happen in between. *)
Theorem runOps_defeats (level hp : Z) (invulnerable : bool) (rnd : list Q)
  (ops : list Op) :
  forallb mountedOp ops = true -> forallb plainOp ops = true ->
  defeats (runOps ops (mount level hp invulnerable rnd)) = defeatingHits ops hp.
Proof.
  intros _ _. rewrite runOps_defeats_from, mount_defeats.
  pose proof (mount_health level hp invulnerable rnd) as Hm.
  apply (f_equal fst) in Hm. cbn in Hm. rewrite Hm. reflexivity.
Qed.

Lemma runOps_defeats_witness :
  defeats (runOps [OpDamageBoss 600; OpForceAttack "stomp_shockwave"; OpWait 5 3000;
                   OpDamageBoss 400; OpDamageBoss 50]
                  (mount 1 1000 false [1 # 2; 1 # 2; 0]%Q)) = 2%nat.
Proof.
  rewrite (runOps_defeats 1 1000 false [1 # 2; 1 # 2; 0]%Q
             [OpDamageBoss 600; OpForceAttack "stomp_shockwave"; OpWait 5 3000;
              OpDamageBoss 400; OpDamageBoss 50]);
    reflexivity.
Defined.

(** ** The difficulty curve over its range *)

Lemma delay_bounds (h1 h2 u : Q) :
  (0 <= h1)%Q -> (h1 <= h2)%Q -> (h2 <= 1)%Q -> (0 <= u < 1)%Q ->
  (2100 <= calculateNextAttackDelay h2 u)%Q /\
  (calculateNextAttackDelay h2 u <= calculateNextAttackDelay h1 u)%Q /\
  (calculateNextAttackDelay h1 u < 6000)%Q.
Proof.
  intros H0 H12 H1 [Hu0 Hu1].
  unfold calculateNextAttackDelay, rageMultiplier, randFloat,
    BOSS_CONFIG.ATTACK_INTERVAL_MIN, BOSS_CONFIG.ATTACK_INTERVAL_MAX.
  change (inject_Z 3000) with (3000 # 1). change (inject_Z 6000) with (6000 # 1).
  repeat split; nra.
Qed.

(** For health fractions in [0, 1] and a draw in [0, 1), the delay lies in
    [2100, 6000) ms, and a higher health fraction never gives a longer
    delay. *)
Theorem calculateNextAttackDelay_range (h1 h2 u : Q) :
  (0 <= h1)%Q -> (h1 <= h2)%Q -> (h2 <= 1)%Q -> (0 <= u < 1)%Q ->
  (2100 <= calculateNextAttackDelay h2 u)%Q /\
  (calculateNextAttackDelay h2 u <= calculateNextAttackDelay h1 u)%Q /\
  (calculateNextAttackDelay h1 u < 6000)%Q.
Proof. apply delay_bounds. Qed.

Lemma calculateNextAttackDelay_range_witness :
  (2100 <= calculateNextAttackDelay 1 (1 # 2))%Q /\
  (calculateNextAttackDelay 1 (1 # 2) <= calculateNextAttackDelay (1 # 4) (1 # 2))%Q /\
  (calculateNextAttackDelay (1 # 4) (1 # 2) < 6000)%Q.
Proof.
  apply (calculateNextAttackDelay_range (1 # 4) 1 (1 # 2)).
  - discriminate.
  - discriminate.
  - discriminate.
  - split; [discriminate | reflexivity].
Defined.

Lemma healthPercent_range (sc : Scope) :
  0 < sc_currentHP sc -> sc_currentHP sc <= sc_maxHP sc ->
  (0 <= healthPercent sc <= 1)%Q.
Proof.
  intros Hpos Hle. unfold healthPercent.
  assert (Hm : (0 < inject_Z (sc_maxHP sc))%Q).
  { change (inject_Z 0 < inject_Z (sc_maxHP sc))%Q. rewrite <- Zlt_Qlt. lia. }
  split.
  - apply Qle_shift_div_l; [exact Hm|]. rewrite Qmult_0_l.
    change (inject_Z 0 <= inject_Z (sc_currentHP sc))%Q. rewrite <- Zle_Qle. lia.
  - apply Qle_shift_div_r; [exact Hm|]. rewrite Qmult_1_l.
    rewrite <- Zle_Qle. exact Hle.
Qed.

(** With a health in (0, maxHP] in its scope and a next draw in [0, 1),
    [scheduleNextAttack] consumes that draw and arms exactly one timeout, the
    attack timer of its scope, due between 2100 and 6000 ms from now, and
    stores its handle in [attackTimerRef]. *)
Theorem scheduleNextAttack_arms (sc : Scope) (u : Q) (rest : list Q) (w : World) :
  0 < sc_currentHP sc -> sc_currentHP sc <= sc_maxHP sc ->
  draws w = u :: rest -> (0 <= u < 1)%Q ->
  let w' := scheduleNextAttack sc w in
  exists due,
    timers w' = (timers w ++ [mkTimer (nextTimerId w) due (AttackTimer sc)])%list /\
    (now w + 2100 <= due)%Q /\ (due < now w + 6000)%Q /\
    attackTimerRef w' = Some (nextTimerId w) /\
    draws w' = rest /\ phase w' = phase w /\ currentHP w' = currentHP w.
Proof.
  intros Hpos Hle Hdraws Hu. cbv zeta. unfold scheduleNextAttack.
  destruct (sc_currentHP sc <=? 0) eqn:Hz; [apply Z.leb_le in Hz; lia|].
  unfold Math_random. rewrite Hdraws. cbn.
  pose proof (healthPercent_range sc Hpos Hle) as [Hh0 Hh1].
  destruct (delay_bounds (healthPercent sc) (healthPercent sc) u)
    as [Hlo [_ Hhi]]; try assumption; [apply Qle_refl|].
  eexists. split; [reflexivity|].
  assert (Hmax : (Qmax (calculateNextAttackDelay (healthPercent sc) u) 0
                  == calculateNextAttackDelay (healthPercent sc) u)%Q).
  { apply Q.max_l. lra. }
  repeat split; try (rewrite Hmax; lra).
Qed.

Lemma scheduleNextAttack_arms_witness :
  exists due,
    timers (mount 1 1000 false [1 # 2]%Q)
    = ([] ++ [mkTimer 1 due (AttackTimer (mkScope 1 1000 false 1000))])%list /\
    (0 + 2100 <= due)%Q /\ (due < 0 + 6000)%Q /\
    attackTimerRef (mount 1 1000 false [1 # 2]%Q) = Some 1%nat /\
    draws (mount 1 1000 false [1 # 2]%Q) = [] /\
    phase (mount 1 1000 false [1 # 2]%Q) = IDLE /\
    currentHP (mount 1 1000 false [1 # 2]%Q) = 1000.
Proof.
  apply (scheduleNextAttack_arms (mkScope 1 1000 false 1000) (1 # 2) []
           (initial 1 1000 false [1 # 2]%Q)).
  - reflexivity.
  - cbn. lia.
  - reflexivity.
  - split; [discriminate | reflexivity].
Defined.

(** ** Unweighted selection *)

Lemma Qfloor_unique (x : Q) (i : Z) :
  (inject_Z i <= x)%Q -> (x < inject_Z i + 1)%Q -> Qfloor x = i.
Proof.
  intros Hlo Hhi.
  pose proof (Qfloor_le x) as Hf1. pose proof (Qlt_floor x) as Hf2.
  rewrite inject_Z_plus in Hf2. change (inject_Z 1) with 1%Q in Hf2.
  assert (H1 : (inject_Z (Qfloor x) < inject_Z (i + 1))%Q).
  { rewrite inject_Z_plus. change (inject_Z 1) with 1%Q. lra. }
  assert (H2 : (inject_Z i < inject_Z (Qfloor x + 1))%Q).
  { rewrite inject_Z_plus. change (inject_Z 1) with 1%Q. lra. }
  rewrite <- Zlt_Qlt in H1, H2. lia.
Qed.

(** Without weights, [selectRandomAttack] returns [attacks[floor(u * n)]]:
    for a draw in [0, 1) it is the attack at index [i] exactly when
    [i <= u * n < i + 1], so a non-empty list always yields one of its
    attacks; an empty list yields nothing. *)
Theorem selectRandomAttack_unweighted {A : Type} (attacks : list A) (u : Q) :
  (0 <= u < 1)%Q ->
  (forall i a,
      nth_error attacks i = Some a ->
      (inject_Z (Z.of_nat i) <= u * inject_Z (Z.of_nat (length attacks)))%Q ->
      (u * inject_Z (Z.of_nat (length attacks)) < inject_Z (Z.of_nat i) + 1)%Q ->
      selectRandomAttack attacks None u = Some a) /\
  (attacks <> [] ->
   exists a, selectRandomAttack attacks None u = Some a /\ In a attacks) /\
  (attacks = [] -> selectRandomAttack attacks None u = None).
Proof.
  intros [Hu0 Hu1]. split; [|split].
  - intros i a Hnth Hlo Hhi. unfold selectRandomAttack.
    rewrite (Qfloor_unique _ (Z.of_nat i) Hlo Hhi), Nat2Z.id. exact Hnth.
  - intros Hne. unfold selectRandomAttack.
    set (n := length attacks).
    assert (Hn : (0 < n)%nat) by (destruct attacks; [congruence|cbn; lia]).
    set (x := (u * inject_Z (Z.of_nat n))%Q).
    assert (Hn' : (1 <= inject_Z (Z.of_nat n))%Q).
    { change 1%Q with (inject_Z 1). rewrite <- Zle_Qle. lia. }
    assert (Hx0 : (0 <= x)%Q) by (unfold x; nra).
    assert (Hx1 : (x < inject_Z (Z.of_nat n))%Q) by (unfold x; nra).
    pose proof (Qfloor_le x) as Hf1. pose proof (Qlt_floor x) as Hf2.
    assert (Hlt : (Qfloor x < Z.of_nat n)%Z).
    { rewrite Zlt_Qlt. lra. }
    assert (Hge : (0 <= Qfloor x)%Z).
    { assert (H : (inject_Z (-1) < inject_Z (Qfloor x))%Q).
      { rewrite inject_Z_plus in Hf2. change (inject_Z 1) with 1%Q in Hf2.
        change (inject_Z (-1)) with (-1 # 1)%Q. lra. }
      rewrite <- Zlt_Qlt in H. lia. }
    destruct (nth_error attacks (Z.to_nat (Qfloor x))) as [a|] eqn:Hnth.
    + exists a. split; [reflexivity|]. eapply nth_error_In; eassumption.
    + apply nth_error_None in Hnth. fold n in Hnth. lia.
  - intros ->. unfold selectRandomAttack. cbn. now destruct (Z.to_nat _).
Qed.

Lemma selectRandomAttack_unweighted_witness :
  selectRandomAttack [SWEEPING_LASER; MISSILE_BARRAGE] None (3 # 4) = Some MISSILE_BARRAGE.
Proof.
  destruct (selectRandomAttack_unweighted [SWEEPING_LASER; MISSILE_BARRAGE] (3 # 4))
    as [Hidx _]; [split; [discriminate | reflexivity]|].
  apply (Hidx 1%nat MISSILE_BARRAGE); [reflexivity | discriminate | reflexivity].
Defined.

(** ** The registry and the catalog, both ways *)

Lemma catalog_cases (a : Attack) :
  In a catalog ->
  a = SWEEPING_LASER \/ a = MISSILE_BARRAGE \/ a = STOMP_SHOCKWAVE \/
  a = DEBRIS_STORM \/ a = CRYO_BLAST \/ a = SOLAR_FLARE \/ a = TOXIC_SPRAY \/
  a = SYSTEM_CORRUPTION \/ a = ANDROSS_WRATH.
Proof. cbn. intuition auto. Qed.

Lemma registry_catalog (s : string) (a : Attack) :
  ATTACK_REGISTRY !! s = Some a -> In a catalog /\ id a = s.
Proof.
  rewrite registry_lookup. intros Hfind. apply find_some in Hfind.
  destruct Hfind as [Hin Heq]. apply String.eqb_eq in Heq. auto.
Qed.

Lemma catalog_registry (a : Attack) :
  In a catalog -> ATTACK_REGISTRY !! id a = Some a.
Proof.
  intros Hin. apply catalog_cases in Hin.
  repeat (destruct Hin as [->|Hin]; [reflexivity|]). subst a. reflexivity.
Qed.

(** Every attack of the two catalogs can be forced by its [id]: the registry
    holds it under that [id] (ids do not clash), and [forceAttack] then makes
    it the current attack in [TELEGRAPH], restarts the phase clock and keeps
    the handle of a timeout due [telegraphDuration] later, whatever the phase
    and the health before. *)
Theorem forceAttack_catalog (a : Attack) (w : World) :
  In a catalog ->
  let w' := forceAttack (id a) w in
  ATTACK_REGISTRY !! id a = Some a /\
  phase w' = TELEGRAPH /\ currentAttack w' = Some a /\
  attackStartTimeRef w' = now w /\
  currentPhaseDurationRef w' = telegraphDuration a /\
  phaseTimerRef w' = Some (nextTimerId w) /\
  In (mkTimer (nextTimerId w) (now w + inject_Z (telegraphDuration a))%Q
              (ToExecuting (startAttackScope w) a))
     (timers w') /\
  currentHP w' = currentHP w /\ calls w' = calls w.
Proof.
  intros Hin. cbv zeta. pose proof (catalog_registry a Hin) as Hreg.
  split; [exact Hreg|].
  rewrite (forceAttack_timers (id a) a w Hreg).
  unfold forceAttack. rewrite Hreg.
  assert (Hdur : Qmax (inject_Z (telegraphDuration a)) 0 = inject_Z (telegraphDuration a)).
  { apply catalog_cases in Hin.
    repeat (destruct Hin as [->|Hin]; [reflexivity|]). subst a. reflexivity. }
  rewrite Hdur.
  destruct (attackTimerRef w), (phaseTimerRef w) eqn:Hp; cbn; rewrite ?Hp; cbn;
    repeat split; apply in_or_app; right; now left.
Qed.

Lemma forceAttack_catalog_witness :
  ATTACK_REGISTRY !! "cryo_blast" = Some CRYO_BLAST /\
  phase (forceAttack "cryo_blast" stompExecuting) = TELEGRAPH /\
  currentAttack (forceAttack "cryo_blast" stompExecuting) = Some CRYO_BLAST.
Proof.
  destruct (forceAttack_catalog CRYO_BLAST stompExecuting) as [H1 [H2 [H3 _]]].
  - cbn. auto 10.
  - auto.
Defined.

(** Each unique attack is the [unique] of the boss of its own level (no two
    unique attacks share a level); the levels 1 to 7 have a unique attack
    and three attacks in all, every other level has none and the two common
    attacks only. *)
Theorem getAttacksForBoss_levels :
  (forall u, In u (Object_values UNIQUE_ATTACKS) ->
     exists level, bossLevel u = Some level /\
                   unique (getAttacksForBoss level) = Some u) /\
  (forall level,
     (1 <= level <= 7 ->
      registeredFor level = true /\ length (all (getAttacksForBoss level)) = 3%nat) /\
     (~ (1 <= level <= 7) ->
      unique (getAttacksForBoss level) = None /\
      all (getAttacksForBoss level) = [SWEEPING_LASER; MISSILE_BARRAGE])).
Proof.
  split.
  - intros u Hin. cbn in Hin.
    repeat (destruct Hin as [<-|Hin]; [eexists; split; reflexivity|]).
    destruct Hin.
  - intros level. split.
    + intros Hl.
      assert (Hc : level = 1 \/ level = 2 \/ level = 3 \/ level = 4 \/ level = 5 \/
                   level = 6 \/ level = 7) by lia.
      repeat (destruct Hc as [->|Hc]; [split; reflexivity|]). subst. split; reflexivity.
    + intros Hl. unfold getAttacksForBoss. cbn [unique all].
      assert (Hnone : List.find (bossLevel_is level) (Object_values UNIQUE_ATTACKS) = None).
      { pose proof (find_registeredFor level) as Hf.
        destruct (List.find (bossLevel_is level) (Object_values UNIQUE_ATTACKS));
          [|reflexivity].
        apply registeredFor_spec in Hf. destruct Hf as [u [Hin Hlvl]].
        cbn in Hin.
        repeat (destruct Hin as [<-|Hin]; [injection Hlvl as <-; lia|]).
        destruct Hin. }
      rewrite Hnone. split; reflexivity.
Qed.

(** ** Selection from the pool of a boss *)

Lemma Qle_bool_false (x y : Q) : Qle_bool x y = false -> (y < x)%Q.
Proof.
  intros H. apply Qnot_le_lt. intros Hle. apply Qle_bool_iff in Hle. congruence.
Qed.

(** For a boss with a unique attack (levels 1 to 7), a maximum health other
    than [0] (so that the health fraction is a number) and a draw [u] in
    [0, 1), the attack timer picks by thresholds on [u * T], where the total weight
    [T] is 4 when the health fraction of its scope is below one half and 3
    otherwise: the first common attack up to 1, the second up to 2, the
    unique attack above 2.  So the unique attack is picked for the draws
    above 1/2 below half health, and above 2/3 otherwise. *)
Theorem attackPool_thresholds (sc : Scope) (u : Q) :
  1 <= sc_bossLevel sc <= 7 -> sc_maxHP sc <> 0 -> (0 <= u < 1)%Q ->
  let attackPool := all (getAttacksForBoss (sc_bossLevel sc)) in
  let T := if Qle_bool (1 # 2) (healthPercent sc) then 3%Q else 4%Q in
  exists a,
    selectRandomAttack attackPool (Some (attackWeights sc attackPool)) u = Some a /\
    (a = SWEEPING_LASER <-> (u * T <= 1)%Q) /\
    (a = MISSILE_BARRAGE <-> (1 < u * T)%Q /\ (u * T <= 2)%Q) /\
    (isUnique a = true <-> (2 < u * T)%Q) /\
    (isUnique a = true -> unique (getAttacksForBoss (sc_bossLevel sc)) = Some a).
Proof.
  intros Hl _ [Hu0 Hu1]. cbv zeta.
  assert (Hc : sc_bossLevel sc = 1 \/ sc_bossLevel sc = 2 \/ sc_bossLevel sc = 3 \/
               sc_bossLevel sc = 4 \/ sc_bossLevel sc = 5 \/ sc_bossLevel sc = 6 \/
               sc_bossLevel sc = 7) by lia.
  assert (Hsolve :
    forall x : Attack,
      isUnique x = true -> x <> SWEEPING_LASER -> x <> MISSILE_BARRAGE ->
      let attackPool := [SWEEPING_LASER; MISSILE_BARRAGE; x] in
      let T := if Qle_bool (1 # 2) (healthPercent sc) then 3%Q else 4%Q in
      exists a,
        selectRandomAttack attackPool (Some (attackWeights sc attackPool)) u = Some a /\
        (a = SWEEPING_LASER <-> (u * T <= 1)%Q) /\
        (a = MISSILE_BARRAGE <-> (1 < u * T)%Q /\ (u * T <= 2)%Q) /\
        (isUnique a = true <-> (2 < u * T)%Q) /\
        (isUnique a = true -> Some x = Some a)).
  { intros x Hx Hx1 Hx2. cbv zeta. unfold attackWeights. cbn [map].
    change (String.eqb (type x) "unique") with (isUnique x). rewrite Hx.
    change (String.eqb (type SWEEPING_LASER) "unique") with false.
    change (String.eqb (type MISSILE_BARRAGE) "unique") with false.
    cbn [andb].
    destruct (Qle_bool (1 # 2) (healthPercent sc)); cbn [negb];
      unfold selectRandomAttack; cbn [fold_left selectLoop];
      repeat (match goal with
              | |- context [Qle_bool ?a ?b] =>
                  let H := fresh "Hq" in
                  destruct (Qle_bool a b) eqn:H;
                  [apply Qle_bool_iff in H | apply Qle_bool_false in H]
              end);
      try (exfalso; lra);
      eexists; (split; [reflexivity|]);
      repeat split; intros;
        try reflexivity; try discriminate; try congruence; try lra;
        try (destruct H; lra). }
  repeat (destruct Hc as [Hc|Hc];
          [rewrite Hc; apply Hsolve; [reflexivity|discriminate|discriminate]|]).
  rewrite Hc; apply Hsolve; [reflexivity|discriminate|discriminate].
Qed.

Lemma attackPool_thresholds_witness :
  exists a,
    selectRandomAttack (all (getAttacksForBoss 1))
      (Some (attackWeights (mkScope 1 1000 false 400) (all (getAttacksForBoss 1))))
      (3 # 5) = Some a /\ isUnique a = true.
Proof.
  destruct (attackPool_thresholds (mkScope 1 1000 false 400) (3 # 5))
    as [a [Hsel [_ [_ [Hu _]]]]].
  - cbn. lia.
  - cbn. lia.
  - split; [discriminate | reflexivity].
  - exists a. split; [exact Hsel|]. apply Hu. reflexivity.
Defined.

(** ** Weak points *)

Lemma damageBoss_phase (amount : Z) (w : World) : phase (damageBoss amount w) = phase w.
Proof.
  unfold damageBoss. cbn.
  destruct (Z.max 0 (currentHP w - amount) <=? 0); reflexivity.
Qed.

Lemma clickWeakPoint_iter (n : nat) :
  forall (s : WeakPointState) (w : World),
    0 <= currentHP w ->
    let sw := Nat.iter n clickWeakPoint (s, w) in
    phase (snd sw) = phase w /\
    (phase w <> RECOVERY -> sw = (s, w)) /\
    (phase w = RECOVERY ->
     currentHP (snd sw) = Z.max 0 (currentHP w - 50 * Z.of_nat n)).
Proof.
  induction n as [|n IH]; intros s w Hhp.
  - cbn. repeat split; lia.
  - cbv zeta. rewrite Nat.iter_succ.
    destruct (IH s w Hhp) as [IHp [IHn IHr]].
    destruct (Nat.iter n clickWeakPoint (s, w)) as [s' w'] eqn:Hiter.
    cbn [fst snd] in *. unfold clickWeakPoint, handleHit, weakPointIsVulnerable.
    cbn [fst snd]. rewrite IHp.
    destruct (phase w) eqn:Hph; cbn [negb fst snd];
      try (split; [exact IHp|split; [intros _; apply IHn; discriminate|discriminate]]).
    unfold handleWeakPointHit. rewrite damageBoss_phase, damageBoss_currentHP.
    split; [exact IHp|]. split; [congruence|].
    intros _. rewrite (IHr eq_refl). lia.
Qed.

(** Clicks on a weak point count only in [RECOVERY]: in any other phase they
    change neither the hook nor the weak point; in [RECOVERY] each click is
    a [damageBoss(50)], so [n] clicks leave [max(0, health - 50 n)], and the
    phase stays what it was. *)
Theorem clickWeakPoint_health (n : nat) (s : WeakPointState) (w : World) :
  0 <= currentHP w ->
  let sw := Nat.iter n clickWeakPoint (s, w) in
  phase (snd sw) = phase w /\
  (phase w <> RECOVERY -> sw = (s, w)) /\
  (phase w = RECOVERY ->
   currentHP (snd sw) = Z.max 0 (currentHP w - 50 * Z.of_nat n)).
Proof. apply clickWeakPoint_iter. Qed.

Lemma clickWeakPoint_health_witness :
  currentHP (snd (Nat.iter 3 clickWeakPoint
                    (mkWeakPointState false [],
                     wait 5 3000 (forceAttack "stomp_shockwave" (mount 1 1000 false [])))))
  = Z.max 0 (1000 - 50 * 3).
Proof.
  destruct (clickWeakPoint_health 3 (mkWeakPointState false [])
              (wait 5 3000 (forceAttack "stomp_shockwave" (mount 1 1000 false []))))
    as [_ [_ Hr]].
  - vm_compute. discriminate.
  - apply Hr. reflexivity.
Defined.

(** ** The health bar *)

Lemma Qdiv_inject_Z (h m : Z) :
  0 < m ->
  exists q : Q, (q == inject_Z h / inject_Z m)%Q /\ (q * inject_Z m == inject_Z h)%Q /\
                (0 < inject_Z m)%Q.
Proof.
  intros Hm.
  assert (Hmq : (0 < inject_Z m)%Q).
  { change (inject_Z 0 < inject_Z m)%Q. rewrite <- Zlt_Qlt. lia. }
  exists (inject_Z h / inject_Z m)%Q. split; [reflexivity|]. split; [|exact Hmq].
  rewrite Qmult_comm. apply Qmult_div_r. lra.
Qed.

Lemma barHealthPercent_range (hp maxhp : Z) :
  0 <= hp -> hp <= maxhp -> 0 < maxhp ->
  (0 <= barHealthPercent hp maxhp <= 100)%Q /\
  ((barHealthPercent hp maxhp == 0)%Q <-> hp = 0).
Proof.
  intros H0 Hle Hm. unfold barHealthPercent.
  destruct (Qdiv_inject_Z hp maxhp Hm) as [q [Hq [Hqm Hmq]]]. rewrite <- Hq.
  assert (Hhq : (0 <= inject_Z hp)%Q).
  { change (inject_Z 0 <= inject_Z hp)%Q. rewrite <- Zle_Qle. lia. }
  assert (Hleq : (inject_Z hp <= inject_Z maxhp)%Q) by (rewrite <- Zle_Qle; lia).
  split; [split; nra|]. split.
  - intros Hz. assert (Hh : (inject_Z hp == inject_Z 0)%Q).
    { change (inject_Z 0) with 0%Q. nra. }
    exact (proj1 (inject_Z_injective hp 0) Hh).
  - intros ->. change (inject_Z 0) with 0%Q in Hqm. nra.
Qed.

(** In every state reached from the mount of an encounter with [maxHP > 0]
    by operations whose [damageBoss] amounts are [>= 0], the health bar is
    filled between 0 and 100 percent, and is empty exactly at health [0];
    the critical colour is shown only when the low-health test holds too, and
    the normal border colour exactly from 25 percent up. *)
Theorem hpBar_reachable (level hp : Z) (invulnerable : bool) (rnd : list Q)
  (ops : list Op) :
  0 < hp -> damageAmountsNonneg ops ->
  let w := runOps ops (mount level hp invulnerable rnd) in
  let pct := barHealthPercent (currentHP w) (maxHP w) in
  (0 <= pct <= 100)%Q /\
  ((pct == 0)%Q <-> currentHP w = 0) /\
  (isCritical (currentHP w) (maxHP w) = true -> isLowHealth (currentHP w) (maxHP w) = true) /\
  (barBorderColor (currentHP w) (maxHP w) = "#ff4444" <-> (25 <= pct)%Q).
Proof.
  intros Hhp Hops. cbv zeta.
  pose proof (mount_health level hp invulnerable rnd) as Hm. unfold health in Hm.
  injection Hm as Hcur Hmax.
  destruct (runOps_health ops (mount level hp invulnerable rnd)) as [H1 [H2 H3]];
    [lia|].
  specialize (H3 Hops ltac:(lia)).
  set (w := runOps ops (mount level hp invulnerable rnd)) in *.
  assert (Hpos : 0 < maxHP w) by lia.
  destruct (barHealthPercent_range (currentHP w) (maxHP w) H2 H3 Hpos) as [Hr Hz].
  split; [exact Hr|]. split; [exact Hz|].
  unfold barBorderColor, isCritical, isLowHealth.
  destruct (Qle_bool 10 (barHealthPercent (currentHP w) (maxHP w))) eqn:H10;
    destruct (Qle_bool 25 (barHealthPercent (currentHP w) (maxHP w))) eqn:H25;
    cbn [negb];
    try apply Qle_bool_iff in H10; try apply Qle_bool_iff in H25;
    try apply Qle_bool_false in H10; try apply Qle_bool_false in H25;
    try (exfalso; lra);
    (split; [intros; try reflexivity; try discriminate|]);
    (split; intros; try reflexivity; try discriminate; try lra; try assumption).
Qed.

Lemma hpBar_reachable_witness :
  let w := runOps [OpDamageBoss 800; OpFrame] (mount 1 1000 false []) in
  (barHealthPercent (currentHP w) (maxHP w) == 20)%Q /\
  barBorderColor (currentHP w) (maxHP w) <> "#ff4444".
Proof.
  cbv zeta.
  destruct (hpBar_reachable 1 1000 false [] [OpDamageBoss 800; OpFrame])
    as [_ [_ [_ Hcol]]].
  - lia.
  - intros amount [Heq|[Heq|[]]]; [injection Heq as <-; lia|discriminate].
  - split; [reflexivity|]. intros Hc. apply Hcol in Hc. vm_compute in Hc. auto.
Defined.

(** ** The dodge window *)

(** In [TELEGRAPH], after a frame, the prompt is in its optimal window
    exactly while the time since the phase began is between 70% and 95% of
    the duration of the phase. *)
Theorem isInWindow_frame (w : World) :
  phase w = TELEGRAPH -> 0 < currentPhaseDurationRef w ->
  let elapsed := (now w - attackStartTimeRef w)%Q in
  let d := inject_Z (currentPhaseDurationRef w) in
  isInWindow (attackProgress (frame w)) = true <->
  ((7 # 10) * d <= elapsed)%Q /\ (elapsed <= (95 # 100) * d)%Q.
Proof.
  intros Hph Hd. cbv zeta. unfold frame. rewrite Hph.
  apply Z.ltb_lt in Hd. rewrite Hd. apply Z.ltb_lt in Hd. cbn [attackProgress set_attackProgress].
  set (e := (now w - attackStartTimeRef w)%Q).
  destruct (Qdiv_inject_Z 1 (currentPhaseDurationRef w) Hd) as [q0 [_ [_ Hdq]]].
  clear q0.
  set (d := inject_Z (currentPhaseDurationRef w)) in *.
  assert (Hq : ((e / d) * d == e)%Q).
  { rewrite Qmult_comm. apply Qmult_div_r. lra. }
  set (q := (e / d)%Q) in *.
  unfold isInWindow, BOSS_CONFIG.EVASION_WINDOW_START, BOSS_CONFIG.EVASION_WINDOW_END.
  rewrite andb_true_iff, !Qle_bool_iff.
  destruct (Q.min_spec 1 q) as [[Hlt Hmin]|[Hle Hmin]]; rewrite Hmin.
  - split; [intros [_ Hc]; exfalso; revert Hc; apply Qlt_not_le; reflexivity|].
    intros [_ Hc]. exfalso. nra.
  - split; intros [Ha Hb]; split; nra.
Qed.

Lemma isInWindow_frame_witness :
  isInWindow (attackProgress
                (frame (wait 5 1440 (forceAttack "stomp_shockwave"
                                       (mount 1 1000 false []))))) = true.
Proof.
  apply (isInWindow_frame (wait 5 1440 (forceAttack "stomp_shockwave"
                                         (mount 1 1000 false [])))).
  - reflexivity.
  - reflexivity.
  - split; vm_compute; discriminate.
Defined.

(** ** The invariant of the hook *)

Lemma Forall_filter_keep {A : Type} (P : A -> Prop) (f : A -> bool) (l : list A) :
  Forall P l -> Forall P (List.filter f l).
Proof.
  intros H. apply List.Forall_forall. intros x Hx. apply List.filter_In in Hx.
  rewrite List.Forall_forall in H. apply H. tauto.
Qed.

Lemma NoDup_map_filter {A B : Type} (g : A -> B) (f : A -> bool) (l : list A) :
  List.NoDup (map g l) -> List.NoDup (map g (List.filter f l)).
Proof.
  induction l as [|x l IH]; cbn; intros H; [constructor|].
  apply List.NoDup_cons_iff in H. destruct H as [Hx Hl].
  destruct (f x); cbn; [|auto].
  apply List.NoDup_cons_iff. split; [|auto].
  intros Hin. apply Hx. apply List.in_map_iff in Hin. destruct Hin as [y [Hy Hin]].
  apply List.filter_In in Hin. apply List.in_map_iff. exists y. tauto.
Qed.

Lemma timerOk_same (w w' : World) (t : Timer) :
  (nextTimerId w <= nextTimerId w')%nat ->
  attackTimerRef w' = attackTimerRef w -> phaseTimerRef w' = phaseTimerRef w ->
  phase w' = phase w -> currentAttack w' = currentAttack w ->
  timerOk w t -> timerOk w' t.
Proof.
  unfold timerOk. intros Hn Ha Hp Hph Hc [Hid Hcb].
  split; [lia|]. destruct (timer_cb t); rewrite ?Ha, ?Hp, ?Hph, ?Hc; exact Hcb.
Qed.

Lemma timerOk_quiet (w w' : World) (t : Timer) :
  isCycleTimer t = false -> (nextTimerId w <= nextTimerId w')%nat ->
  timerOk w t -> timerOk w' t.
Proof.
  unfold timerOk, isCycleTimer, isAttackTimer, isPhaseTimer.
  intros Hq Hn [Hid Hcb]. split; [lia|].
  destruct (timer_cb t); try discriminate; exact Hcb.
Qed.

Lemma Forall_timerOk_same (w w' : World) (ts : list Timer) :
  (nextTimerId w <= nextTimerId w')%nat ->
  attackTimerRef w' = attackTimerRef w -> phaseTimerRef w' = phaseTimerRef w ->
  phase w' = phase w -> currentAttack w' = currentAttack w ->
  Forall (timerOk w) ts -> Forall (timerOk w') ts.
Proof.
  intros Hn Ha Hp Hph Hc H. eapply List.Forall_impl; [|exact H].
  intros t. now apply timerOk_same.
Qed.

Lemma Forall_timerOk_quiet (w w' : World) (ts : list Timer) :
  (forall t, In t ts -> isCycleTimer t = false) ->
  (nextTimerId w <= nextTimerId w')%nat ->
  Forall (timerOk w) ts -> Forall (timerOk w') ts.
Proof.
  intros Hq Hn H. apply List.Forall_forall. intros t Hin.
  rewrite List.Forall_forall in H. eapply timerOk_quiet; eauto.
Qed.

Lemma NoDup_ids_snoc (w : World) (ts : list Timer) (n : nat) (d : Q) (cb : Callback) :
  Forall (fun t => (timer_id t < n)%nat) ts ->
  List.NoDup (map timer_id ts) ->
  List.NoDup (map timer_id (ts ++ [mkTimer n d cb])).
Proof.
  intros Hlt Hnd. rewrite map_app. cbn.
  induction ts as [|t ts IH]; cbn.
  - constructor; [intros []|constructor].
  - apply List.NoDup_cons_iff in Hnd. destruct Hnd as [Hx Hnd].
    apply List.Forall_cons_iff in Hlt. destruct Hlt as [Ht Hlt].
    apply List.NoDup_cons_iff. split; [|auto].
    rewrite List.in_app_iff. intros [Hin|[Heq|[]]]; [contradiction|lia].
Qed.

Lemma timerOk_ids (w : World) (ts : list Timer) (n : nat) :
  (nextTimerId w <= n)%nat ->
  Forall (timerOk w) ts -> Forall (fun t => (timer_id t < n)%nat) ts.
Proof.
  intros Hn H. eapply List.Forall_impl; [|exact H]. intros t [Hid _]. cbn. lia.
Qed.

(** Two pending cycle timeouts are the same timeout. *)
Lemma cycle_timer_unique (w : World) (t t' : Timer) :
  timerOk w t -> timerOk w t' ->
  isCycleTimer t = true -> isCycleTimer t' = true -> timer_id t' = timer_id t.
Proof.
  unfold timerOk, isCycleTimer, isAttackTimer, isPhaseTimer.
  intros [_ H] [_ H'] Hc Hc'.
  destruct (timer_cb t), (timer_cb t'); try discriminate; intuition congruence.
Qed.

Lemma clearTimeout_In (ref : option nat) (t : Timer) (w : World) :
  In t (timers (clearTimeout ref w)) <->
  In t (timers w) /\ ref <> Some (timer_id t).
Proof.
  destruct ref as [tid|]; cbn.
  - rewrite List.filter_In, negb_true_iff, Nat.eqb_neq. split; intros [H1 H2]; split; congruence.
  - split; [intros H; split; [exact H|discriminate]|tauto].
Qed.

Lemma clearTimeout_consistent (ref : option nat) (w : World) :
  Consistent w -> Consistent (clearTimeout ref w).
Proof.
  intros [Ht Hn Hi Ha Hc Hk Hp]. destruct ref as [tid|]; [|now constructor].
  constructor; cbn; try assumption.
  - apply Forall_filter_keep. eapply Forall_timerOk_same; [| | | | |exact Ht]; auto.
  - now apply NoDup_map_filter.
Qed.

Lemma clearTimeout_quiet (ref : option nat) (w : World) :
  quiet w -> quiet (clearTimeout ref w).
Proof. intros Hq t Hin. apply clearTimeout_In in Hin. apply Hq. tauto. Qed.

(** Once a pending cycle timeout is taken out, none is left. *)
Lemma fired_quiet (t : Timer) (w : World) :
  Consistent w -> In t (timers w) -> isCycleTimer t = true ->
  quiet (clearTimeout (Some (timer_id t)) w).
Proof.
  intros Hc Hin Hcyc t' Hin'. apply clearTimeout_In in Hin'. destruct Hin' as [Hin' Hne].
  destruct (isCycleTimer t') eqn:Hcyc'; [|reflexivity].
  pose proof (timers_ok w Hc) as Hok. rewrite List.Forall_forall in Hok.
  pose proof (cycle_timer_unique w t t' (Hok t Hin) (Hok t' Hin') Hcyc Hcyc').
  congruence.
Qed.

(** Clearing the timeouts of the two refs leaves no cycle timeout. *)
Lemma cleared_refs_quiet (w : World) :
  Consistent w ->
  quiet (clearTimeout (phaseTimerRef w) (clearTimeout (attackTimerRef w) w)).
Proof.
  intros Hc t Hin. apply clearTimeout_In in Hin. destruct Hin as [Hin Hp].
  apply clearTimeout_In in Hin. destruct Hin as [Hin Ha].
  pose proof (timers_ok w Hc) as Hok. rewrite List.Forall_forall in Hok.
  specialize (Hok t Hin). unfold timerOk in Hok. destruct Hok as [_ Hok].
  unfold isCycleTimer, isAttackTimer, isPhaseTimer.
  destruct (timer_cb t); try reflexivity; exfalso; intuition congruence.
Qed.

Lemma startAttack_consistent (sc : Scope) (a : Attack) (w : World) :
  Consistent w -> quiet w -> In a catalog -> Consistent (startAttack sc a w).
Proof.
  intros [Ht Hn Hi Ha Hc Hk Hp] Hq Hin. constructor; cbn.
  - apply List.Forall_app. split.
    + eapply Forall_timerOk_quiet; [exact Hq| |exact Ht]. cbn. lia.
    + constructor; [|constructor]. split; cbn; [lia|auto].
  - eapply NoDup_ids_snoc; [exact w| |exact Hn]. eapply timerOk_ids; [|exact Ht]. lia.
  - split; discriminate.
  - intros a' [= <-]. exact Hin.
  - exact Hc.
  - apply Qle_refl.
  - exact Hp.
Qed.

Lemma scheduleNextAttack_consistent (sc : Scope) (w : World) :
  Consistent w -> quiet w -> phase w = IDLE -> Consistent (scheduleNextAttack sc w).
Proof.
  intros [Ht Hn Hi Ha Hc Hk Hp] Hq Hph. unfold scheduleNextAttack.
  destruct (sc_currentHP sc <=? 0); [now constructor|].
  unfold Math_random. destruct (draws w) as [|u rest]; constructor; cbn;
    try assumption;
    try (apply List.Forall_app; split;
         [eapply Forall_timerOk_quiet; [exact Hq| |exact Ht]; cbn; lia
         |constructor; [|constructor]; split; cbn; [lia|auto]]);
    try (eapply NoDup_ids_snoc; [exact w| |exact Hn];
         eapply timerOk_ids; [|exact Ht]; lia).
Qed.

Lemma damageBoss_consistent (amount : Z) (w : World) :
  Consistent w -> Consistent (damageBoss amount w).
Proof.
  intros [Ht Hn Hi Ha Hc Hk Hp]. unfold damageBoss. cbn.
  destruct (Z.max 0 (currentHP w - amount) <=? 0); constructor; cbn;
    try assumption;
    try (apply List.Forall_app; split;
         [eapply Forall_timerOk_same; [| | | | |exact Ht]; cbn; auto
         |constructor; [|constructor]; split; cbn; [lia|auto]]);
    try (eapply NoDup_ids_snoc; [exact w| |exact Hn];
         eapply timerOk_ids; [|exact Ht]; lia).
  apply List.Forall_app. split; [exact Hc|]. constructor; [exact I|constructor].
Qed.

Lemma registry_In_catalog (attackId : string) (a : Attack) :
  ATTACK_REGISTRY !! attackId = Some a -> In a catalog.
Proof. intros H. now apply registry_catalog in H. Qed.

Lemma clearTimeout_refs (ref : option nat) (w : World) :
  attackTimerRef (clearTimeout ref w) = attackTimerRef w /\
  phaseTimerRef (clearTimeout ref w) = phaseTimerRef w /\
  phase (clearTimeout ref w) = phase w /\
  currentAttack (clearTimeout ref w) = currentAttack w.
Proof. destruct ref; repeat split. Qed.

Lemma forceAttack_consistent (attackId : string) (w : World) :
  Consistent w -> Consistent (forceAttack attackId w).
Proof.
  intros Hc. unfold forceAttack.
  destruct (ATTACK_REGISTRY !! attackId) as [a|] eqn:Hreg; [|exact Hc].
  assert (Hp : phaseTimerRef (clearTimeout (attackTimerRef w) w) = phaseTimerRef w)
    by (destruct (attackTimerRef w); reflexivity).
  cbv zeta. apply startAttack_consistent.
  - now apply clearTimeout_consistent, clearTimeout_consistent.
  - pose proof (cleared_refs_quiet w Hc) as Hq. rewrite <- Hp in Hq. exact Hq.
  - eapply registry_In_catalog; eassumption.
Qed.

Lemma unmount_consistent (w : World) :
  Consistent w -> Consistent (unmount w) /\ quiet (unmount w).
Proof.
  intros Hc. unfold unmount. split.
  - now apply clearTimeout_consistent, clearTimeout_consistent.
  - now apply cleared_refs_quiet.
Qed.

Lemma renderWith_consistent (b f : bool) (w : World) :
  Consistent w -> Consistent (renderWith b f w).
Proof.
  intros [Ht Hn Hi Ha Hc Hk Hp]. unfold renderWith.
  destruct (Bool.eqb b (playerIsInvulnerable w) && negb f); constructor; cbn;
    assumption.
Qed.

Lemma frame_consistent (w : World) : Consistent w -> Consistent (frame w).
Proof.
  intros Hc. unfold frame.
  destruct (phase w) eqn:Hph; try exact Hc;
    destruct (0 <? currentPhaseDurationRef w) eqn:Hd; try exact Hc;
    destruct Hc as [Ht Hn Hi Ha Hc Hk Hp]; constructor; cbn; try assumption;
    try (eapply Forall_timerOk_same; [| | | | |exact Ht]; cbn; auto);
    apply Z.ltb_lt in Hd;
    destruct (Qdiv_inject_Z 1 (currentPhaseDurationRef w) Hd) as [q0 [_ [_ Hdq]]];
    (assert (Hq : (((now w - attackStartTimeRef w)
                    / inject_Z (currentPhaseDurationRef w))
                   * inject_Z (currentPhaseDurationRef w)
                   == now w - attackStartTimeRef w)%Q)
      by (rewrite Qmult_comm; apply Qmult_div_r; lra));
    (split; [apply Q.min_glb; [lra|nra] | apply Q.le_min_l]).
Qed.

Lemma set_now_consistent (x : Q) (w : World) :
  Consistent w -> (now w <= x)%Q -> Consistent (set_now x w).
Proof.
  intros [Ht Hn Hi Ha Hc Hk Hp] Hx. constructor; cbn; try assumption.
  eapply Qle_trans; eassumption.
Qed.

Lemma set_draws_consistent (ds : list Q) (w : World) :
  Consistent w -> Consistent (set_draws ds w).
Proof. intros [Ht Hn Hi Ha Hc Hk Hp]. constructor; cbn; assumption. Qed.

Lemma pool_in_catalog (level : Z) (a : Attack) :
  In a (all (getAttacksForBoss level)) -> In a catalog.
Proof.
  unfold getAttacksForBoss, catalog. cbn [all].
  destruct (List.find (bossLevel_is level) (Object_values UNIQUE_ATTACKS)) as [u|] eqn:Hf.
  - apply find_some in Hf. destruct Hf as [Hu _].
    rewrite !List.in_app_iff. intros [H|[<-|[]]]; auto.
  - rewrite List.in_app_iff. auto.
Qed.

Lemma nextTimer_In (ts : list Timer) (t : Timer) :
  nextTimer ts = Some t -> In t ts.
Proof.
  revert t. induction ts as [|x ts IH]; intros t; cbn; [discriminate|].
  destruct (nextTimer ts) as [t'|].
  - destruct (earlier x t'); intros [= <-]; [now left|right; now apply IH].
  - intros [= <-]. now left.
Qed.

Lemma Math_random_consistent (w : World) :
  Consistent w -> Consistent (snd (Math_random w)).
Proof.
  intros Hc. unfold Math_random. destruct (draws w); cbn; [exact Hc|].
  now apply set_draws_consistent.
Qed.

Lemma Math_random_same (w : World) :
  timers (snd (Math_random w)) = timers w /\ phase (snd (Math_random w)) = phase w /\
  currentAttack (snd (Math_random w)) = currentAttack w.
Proof. unfold Math_random. destruct (draws w); repeat split. Qed.

(** The attack timer starts an attack of the catalog. *)
Lemma attackTimer_runs (sc : Scope) (w : World) :
  exists a, In a catalog /\
            runCallback (AttackTimer sc) w = startAttack sc a (snd (Math_random w)).
Proof.
  cbn [runCallback]. destruct (Math_random w) as [u w'] eqn:Hr. cbn [snd].
  destruct (selectRandomAttack_never_fails
              (all (getAttacksForBoss (sc_bossLevel sc)))
              (attackWeights sc (all (getAttacksForBoss (sc_bossLevel sc)))) u)
    as [a [Hs Hin]].
  { unfold getAttacksForBoss. cbn [all]. destruct (List.find _ _); discriminate. }
  rewrite Hs. exists a. split; [|reflexivity]. eapply pool_in_catalog; eassumption.
Qed.

(** The state just before the function of the fired timeout [t] runs. *)
Lemma fired_consistent (t : Timer) (w : World) :
  Consistent w ->
  Consistent (set_now (Qmax (now w) (timer_due t)) (clearTimeout (Some (timer_id t)) w)).
Proof.
  intros Hc. apply set_now_consistent; [now apply clearTimeout_consistent|].
  cbn. apply Q.le_max_l.
Qed.

Lemma fire_consistent_phase (t : Timer) (w : World) :
  Consistent w -> In t (timers w) ->
  Consistent (fire t w) /\
  (phase (fire t w) = phase w \/ phase (fire t w) = nextPhase (phase w)) /\
  (isCycleTimer t = false -> phase (fire t w) = phase w /\
                             currentAttack (fire t w) = currentAttack w /\
                             (quiet w -> quiet (fire t w))).
Proof.
  intros Hc Hin.
  pose proof (timers_ok w Hc) as Hok. rewrite List.Forall_forall in Hok.
  specialize (Hok t Hin). destruct Hok as [_ Hok].
  pose proof (fired_consistent t w Hc) as Hc0.
  pose proof (attack_ok w Hc) as Hcat.
  assert (Hq0 : isCycleTimer t = true ->
                quiet (set_now (Qmax (now w) (timer_due t))
                         (clearTimeout (Some (timer_id t)) w))).
  { intros Hcyc. exact (fired_quiet t w Hc Hin Hcyc). }
  assert (Hq1 : quiet w ->
                quiet (set_now (Qmax (now w) (timer_due t))
                         (clearTimeout (Some (timer_id t)) w))).
  { intros Hq. exact (clearTimeout_quiet (Some (timer_id t)) w Hq). }
  unfold isCycleTimer, isAttackTimer, isPhaseTimer in *.
  set (w0 := set_now (Qmax (now w) (timer_due t)) (clearTimeout (Some (timer_id t)) w)) in *.
  change (fire t w) with (runCallback (timer_cb t) w0).
  assert (Hph0 : phase w0 = phase w) by reflexivity.
  assert (Hat0 : currentAttack w0 = currentAttack w) by reflexivity.
  destruct (timer_cb t) as [|sc|sc a|sc a|sc a|sc a]; cbn [orb] in *.
  - (* ClearHit *)
    cbn [runCallback]. split; [|split; [left; reflexivity|intros _; repeat split; auto]].
    destruct Hc0 as [Ht Hn Hi Ha Hcl Hk Hp]. constructor; cbn; assumption.
  - (* AttackTimer *)
    destruct Hok as [_ Hidle]. specialize (Hq0 eq_refl).
    destruct (attackTimer_runs sc w0) as [a [Hcata Hrun]].
    rewrite Hrun.
    destruct (Math_random_same w0) as [Htm [Hpm Ham]].
    split; [|split; [right; now rewrite Hidle|discriminate]].
    apply startAttack_consistent; [now apply Math_random_consistent| |exact Hcata].
    intros t' Hin'. rewrite Htm in Hin'. now apply Hq0.
  - (* ToExecuting *)
    cbn [runCallback]. destruct Hok as [_ [Hph Hat]]. specialize (Hq0 eq_refl).
    split; [|split; [right; now rewrite Hph|discriminate]].
    destruct Hc0 as [Ht Hn Hi Ha Hcl Hk Hp]. constructor; cbn; try assumption.
    + rewrite <- app_assoc. apply List.Forall_app. split.
      * eapply Forall_timerOk_quiet; [exact Hq0| |exact Ht]. cbn. lia.
      * cbn [app]. constructor; [|constructor; [|constructor]].
        -- split; cbn; [lia|]. apply Hcat. exact Hat.
        -- split; cbn; [lia|]. repeat split. exact Hat.
    + eapply NoDup_ids_snoc; [exact w| |].
      * apply List.Forall_app. split; [eapply timerOk_ids; [|exact Ht]; cbn; lia|].
        constructor; [cbn; lia|constructor].
      * eapply NoDup_ids_snoc; [exact w| |exact Hn]. eapply timerOk_ids; [|exact Ht]. cbn. lia.
    + rewrite ?Hat0, ?Hat. split; discriminate.
    + apply Q.le_max_l || apply Qle_refl.
  - (* HitCheck *)
    cbn [runCallback]. split; [|split; [left; destruct (sc_playerIsInvulnerable sc); reflexivity|]].
    + destruct (negb (sc_playerIsInvulnerable sc)); [|exact Hc0].
      destruct Hc0 as [Ht Hn Hi Ha Hcl Hk Hp]. constructor; cbn; try assumption.
      apply List.Forall_app. split; [exact Hcl|].
      constructor; [|constructor]. exists a. auto.
    + intros _. destruct (negb (sc_playerIsInvulnerable sc)); repeat split; auto.
  - (* ToRecovery *)
    cbn [runCallback]. destruct Hok as [_ [Hph Hat]]. specialize (Hq0 eq_refl).
    split; [|split; [right; now rewrite Hph|discriminate]].
    destruct Hc0 as [Ht Hn Hi Ha Hcl Hk Hp]. constructor; cbn; try assumption.
    + apply List.Forall_app. split.
      * eapply Forall_timerOk_quiet; [exact Hq0| |exact Ht]. cbn. lia.
      * constructor; [|constructor]; split; cbn; auto.
    + eapply NoDup_ids_snoc; [exact w| |exact Hn]. eapply timerOk_ids; [|exact Ht]. cbn. lia.
    + rewrite ?Hat0, ?Hat. split; discriminate.
    + apply Qle_refl.
  - (* ToIdle *)
    cbn [runCallback]. destruct Hok as [_ [Hph Hat]]. specialize (Hq0 eq_refl).
    split; [|split; [right; rewrite Hph|discriminate]].
    + apply scheduleNextAttack_consistent; [|exact Hq0|reflexivity].
      destruct Hc0 as [Ht Hn Hi Ha Hcl Hk Hp]. constructor; cbn; try assumption.
      * eapply Forall_timerOk_quiet; [exact Hq0| |exact Ht]. cbn. lia.
      * tauto.
      * discriminate.
      * split; [apply Qle_refl|discriminate].
    + unfold scheduleNextAttack. destruct (sc_currentHP sc <=? 0); [reflexivity|].
      unfold Math_random. destruct (draws _); reflexivity.
Qed.

Lemma fire_consistent (t : Timer) (w : World) :
  Consistent w -> In t (timers w) -> Consistent (fire t w).
Proof. intros Hc Hin. now apply fire_consistent_phase. Qed.

Lemma elapse_consistent (fuel : nat) (until : Q) :
  forall w, Consistent w -> Consistent (elapse fuel until w).
Proof.
  induction fuel as [|fuel IH]; intros w Hc; cbn [elapse]; [exact Hc|].
  destruct (nextTimer (timers w)) as [t|] eqn:Hnext.
  - destruct (Qle_bool (timer_due t) until).
    + apply IH. apply fire_consistent; [exact Hc|]. now apply nextTimer_In.
    + apply set_now_consistent; [exact Hc|]. apply Q.le_max_l.
  - apply set_now_consistent; [exact Hc|]. apply Q.le_max_l.
Qed.

Lemma find_In {A : Type} (f : A -> bool) (l : list A) (x : A) :
  List.find f l = Some x -> In x l.
Proof. intros H. now apply find_some in H. Qed.

Lemma applyOp_consistent (o : Op) (w : World) :
  Consistent w -> Consistent (applyOp o w).
Proof.
  intros Hc. destruct o as [amount|attackId|b f| |fuel ms|tid|]; cbn [applyOp].
  - now apply damageBoss_consistent.
  - now apply forceAttack_consistent.
  - now apply renderWith_consistent.
  - now apply frame_consistent.
  - now apply elapse_consistent.
  - destruct (List.find _ (timers w)) as [t|] eqn:Hf; [|exact Hc].
    apply fire_consistent; [exact Hc|]. eapply find_In; eassumption.
  - now apply unmount_consistent.
Qed.

Lemma runOps_consistent (ops : list Op) :
  forall w, Consistent w -> Consistent (runOps ops w).
Proof.
  induction ops as [|o ops IH]; intros w Hc; cbn [runOps fold_left]; [exact Hc|].
  apply IH. now apply applyOp_consistent.
Qed.

Lemma initial_consistent (level hp : Z) (invulnerable : bool) (rnd : list Q) :
  Consistent (initial level hp invulnerable rnd).
Proof.
  constructor; cbn.
  - constructor.
  - constructor.
  - split; reflexivity.
  - discriminate.
  - constructor.
  - apply Qle_refl.
  - split; [apply Qle_refl|discriminate].
Qed.

Lemma mount_consistent (level hp : Z) (invulnerable : bool) (rnd : list Q) :
  Consistent (mount level hp invulnerable rnd).
Proof.
  unfold mount. cbv zeta. apply scheduleNextAttack_consistent.
  - apply initial_consistent.
  - intros t [].
  - reflexivity.
Qed.

Lemma reachable_consistent (level hp : Z) (invulnerable : bool) (rnd : list Q)
  (ops : list Op) :
  Consistent (runOps ops (mount level hp invulnerable rnd)).
Proof. apply runOps_consistent, mount_consistent. Qed.

(** ** What holds in every reachable state *)




Lemma renderWith_phase (b f : bool) (w : World) :
  phase (renderWith b f w) = phase w /\ currentAttack (renderWith b f w) = currentAttack w /\
  timers (renderWith b f w) = timers w.
Proof.
  unfold renderWith. destruct (Bool.eqb b (playerIsInvulnerable w) && negb f); repeat split.
Qed.

Lemma frame_phase (w : World) :
  phase (frame w) = phase w /\ currentAttack (frame w) = currentAttack w /\
  timers (frame w) = timers w.
Proof.
  unfold frame. destruct (phase w) eqn:E;
    try destruct (0 <? currentPhaseDurationRef w); cbn; rewrite ?E; repeat split.
Qed.

Lemma unmount_phase (w : World) :
  phase (unmount w) = phase w /\ currentAttack (unmount w) = currentAttack w.
Proof.
  unfold unmount. destruct (attackTimerRef w), (phaseTimerRef w) eqn:E; cbn;
    rewrite ?E; repeat split.
Qed.

(** The phase machine, over the runs that force no name inherited from
    [Object.prototype]: in every state reached the phase is [IDLE] exactly
    when there is no current attack, and the current attack is one of the
    catalog.  A timeout that fires leaves the phase or moves it one step
    along [IDLE -> TELEGRAPH -> EXECUTING -> RECOVERY -> IDLE]; [forceAttack]
    leaves it or sets [TELEGRAPH]; [damageBoss], a render, a frame and the
    unmount leave it. *)
Theorem reachable_phase_steps (level hp : Z) (invulnerable : bool)
  (rnd : list Q) (ops : list Op) (o : Op) :
  forallb plainOp ops = true -> plainOp o = true ->
  let w := runOps ops (mount level hp invulnerable rnd) in
  let w' := applyOp o w in
  (phase w = IDLE <-> currentAttack w = None) /\
  (forall a, currentAttack w = Some a -> In a catalog) /\
  match o with
  | OpWait _ _ => True
  | OpFire _ => phase w' = phase w \/ phase w' = nextPhase (phase w)
  | OpForceAttack _ => phase w' = phase w \/ phase w' = TELEGRAPH
  | _ => phase w' = phase w
  end.
Proof.
  intros _ _. cbv zeta. set (w := runOps ops (mount level hp invulnerable rnd)).
  pose proof (reachable_consistent level hp invulnerable rnd ops) as Hc. fold w in Hc.
  split; [exact (idle_iff w Hc)|]. split; [exact (attack_ok w Hc)|].
  destruct o as [amount|attackId|b f| |fuel ms|tid|]; cbn [applyOp].
  - apply damageBoss_phase.
  - unfold forceAttack. destruct (ATTACK_REGISTRY !! attackId); [right|left]; reflexivity.
  - apply renderWith_phase.
  - apply frame_phase.
  - exact I.
  - destruct (List.find _ (timers w)) as [t|] eqn:Hf; [|now left].
    apply fire_consistent_phase; [exact Hc|]. eapply find_In; eassumption.
  - apply unmount_phase.
Qed.

Lemma reachable_phase_steps_witness :
  let w := runOps [OpForceAttack "stomp_shockwave"; OpWait 5 1000]
                  (mount 1 1000 false [1 # 2; 1 # 2; 0]%Q) in
  phase w = TELEGRAPH /\
  (phase (applyOp (OpWait 5 800) w) = EXECUTING) /\
  (forall tid, phase (applyOp (OpFire tid) w) = TELEGRAPH \/
               phase (applyOp (OpFire tid) w) = EXECUTING).
Proof.
  cbv zeta. split; [reflexivity|]. split; [reflexivity|].
  intros tid.
  destruct (reachable_phase_steps 1 1000 false [1 # 2; 1 # 2; 0]%Q
              [OpForceAttack "stomp_shockwave"; OpWait 5 1000] (OpFire tid))
    as [_ [_ Hstep]]; [reflexivity|reflexivity|].
  exact Hstep.
Defined.

(** Over the runs that force no name inherited from [Object.prototype],
    every [onPlayerHit] call made carries the damage of an attack of the
    catalog, so a value between 15 and 60. *)
Theorem reachable_player_hits (level hp : Z) (invulnerable : bool)
  (rnd : list Q) (ops : list Op) :
  forallb plainOp ops = true ->
  Forall (fun c => match c with
                   | onPlayerHit d =>
                       (exists a, In a catalog /\ damage a = d) /\ 15 <= d <= 60
                   | onBossDefeated => True
                   end)
         (calls (runOps ops (mount level hp invulnerable rnd))).
Proof.
  intros _.
  pose proof (reachable_consistent level hp invulnerable rnd ops) as Hc.
  eapply List.Forall_impl; [|exact (calls_ok _ Hc)].
  intros [|d]; cbn; [auto|]. intros [a [Hin Hd]]. split; [eauto|].
  apply catalog_cases in Hin.
  repeat (destruct Hin as [->|Hin]; [cbn in Hd; lia|]). subst a. cbn in Hd. lia.
Qed.

Lemma reachable_player_hits_witness :
  let w := runOps [OpForceAttack "stomp_shockwave"; OpWait 5 3000]
                  (mount 1 1000 false [1 # 2; 1 # 2; 0]%Q) in
  calls w = [onPlayerHit 40] /\
  Forall (fun c => match c with
                   | onPlayerHit d =>
                       (exists a, In a catalog /\ damage a = d) /\ 15 <= d <= 60
                   | onBossDefeated => True
                   end)
         (calls w).
Proof.
  cbv zeta. split; [reflexivity|].
  apply (reachable_player_hits 1 1000 false [1 # 2; 1 # 2; 0]%Q
           [OpForceAttack "stomp_shockwave"; OpWait 5 3000]).
  reflexivity.
Defined.

(** In every reachable state the progress of the phase is a fraction in
    [0, 1] and the phase clock was started in the past. *)
Theorem reachable_progress (level hp : Z) (invulnerable : bool)
  (rnd : list Q) (ops : list Op) :
  let w := runOps ops (mount level hp invulnerable rnd) in
  (0 <= attackProgress w <= 1)%Q /\ (attackStartTimeRef w <= now w)%Q.
Proof.
  cbv zeta. pose proof (reachable_consistent level hp invulnerable rnd ops) as Hc.
  split; [exact (progress_ok _ Hc)|exact (clock_ok _ Hc)].
Qed.

(** ** After the unmount *)

Lemma damageBoss_timers (amount : Z) (w : World) :
  timers (damageBoss amount w) =
    (timers w ++ [mkTimer (nextTimerId w)
                          (now w + Qmax (inject_Z BOSS_CONFIG.DAMAGE_FLASH_DURATION) 0)%Q
                          ClearHit])%list /\
  currentAttack (damageBoss amount w) = currentAttack w.
Proof.
  unfold damageBoss. cbn.
  destruct (Z.max 0 (currentHP w - amount) <=? 0); split; reflexivity.
Qed.

Lemma elapse_quiet (fuel : nat) (until : Q) :
  forall w, Consistent w -> quiet w ->
            quiet (elapse fuel until w) /\
            phase (elapse fuel until w) = phase w /\
            currentAttack (elapse fuel until w) = currentAttack w.
Proof.
  induction fuel as [|fuel IH]; intros w Hc Hq; cbn [elapse]; [auto|].
  destruct (nextTimer (timers w)) as [t|] eqn:Hnext; [|repeat split; exact Hq].
  destruct (Qle_bool (timer_due t) until); [|repeat split; exact Hq].
  apply nextTimer_In in Hnext.
  destruct (fire_consistent_phase t w Hc Hnext) as [Hc' [_ Hkeep]].
  destruct (Hkeep (Hq t Hnext)) as [Hph [Hat Hq']].
  destruct (IH (fire t w) Hc' (Hq' Hq)) as [H1 [H2 H3]].
  repeat split; congruence || assumption.
Qed.

(** With no cycle timeout pending, an operation other than [forceAttack]
    arms none and leaves the phase and the current attack. *)
Lemma quiet_step (o : Op) (w : World) :
  Consistent w -> quiet w -> notForce o = true ->
  quiet (applyOp o w) /\ phase (applyOp o w) = phase w /\
  currentAttack (applyOp o w) = currentAttack w.
Proof.
  intros Hc Hq Ho. destruct o as [amount|attackId|b f| |fuel ms|tid|];
    cbn [applyOp]; try discriminate.
  - destruct (damageBoss_timers amount w) as [Ht Ha].
    split; [|split; [apply damageBoss_phase|exact Ha]].
    intros t Hin. rewrite Ht in Hin. apply List.in_app_iff in Hin.
    destruct Hin as [Hin|[<-|[]]]; [now apply Hq|reflexivity].
  - destruct (renderWith_phase b f w) as [Hp [Ha Ht]].
    split; [|auto]. intros t Hin. rewrite Ht in Hin. now apply Hq.
  - destruct (frame_phase w) as [Hp [Ha Ht]].
    split; [|auto]. intros t Hin. rewrite Ht in Hin. now apply Hq.
  - now apply elapse_quiet.
  - destruct (List.find _ (timers w)) as [t|] eqn:Hf; [|auto].
    apply find_In in Hf.
    destruct (fire_consistent_phase t w Hc Hf) as [_ [_ Hkeep]].
    destruct (Hkeep (Hq t Hf)) as [Hph [Hat Hq']]. auto.
  - destruct (unmount_phase w) as [Hp Ha].
    split; [|auto]. now apply unmount_consistent.
Qed.

Lemma quiet_run (ops : list Op) :
  forall w, Consistent w -> quiet w -> forallb notForce ops = true ->
            quiet (runOps ops w) /\ phase (runOps ops w) = phase w /\
            currentAttack (runOps ops w) = currentAttack w.
Proof.
  induction ops as [|o ops IH]; intros w Hc Hq Hops; cbn [runOps fold_left]; [auto|].
  cbn in Hops. apply andb_true_iff in Hops. destruct Hops as [Ho Hops].
  destruct (quiet_step o w Hc Hq Ho) as [Hq' [Hp Ha]].
  destruct (IH (applyOp o w) (applyOp_consistent o w Hc) Hq' Hops) as [H1 [H2 H3]].
  fold (runOps ops (applyOp o w)).
  split; [exact H1|]. split; congruence.
Qed.

(** After the unmount of a reachable state no cycle timeout is pending, and
    as long as [forceAttack] is not called none is armed again: whatever
    else happens, the phase and the current attack stay as they were at the
    unmount.  (Hit checks and flash resets armed before may still fire.) *)
Theorem unmount_stops_cycle (level hp : Z) (invulnerable : bool) (rnd : list Q)
  (ops after : list Op) :
  forallb notForce after = true ->
  let w := runOps ops (mount level hp invulnerable rnd) in
  let w' := runOps after (unmount w) in
  (forall t, In t (timers w') -> isCycleTimer t = false) /\
  phase w' = phase w /\ currentAttack w' = currentAttack w.
Proof.
  intros Hafter. cbv zeta.
  pose proof (reachable_consistent level hp invulnerable rnd ops) as Hc.
  destruct (unmount_consistent _ Hc) as [Hcu Hqu].
  destruct (quiet_run after _ Hcu Hqu Hafter) as [H1 [H2 H3]].
  destruct (unmount_phase (runOps ops (mount level hp invulnerable rnd))) as [Hp Ha].
  repeat split; congruence || assumption.
Qed.

Lemma unmount_stops_cycle_witness :
  let w := runOps [OpForceAttack "stomp_shockwave"; OpWait 5 1900]
                  (mount 1 1000 false [1 # 2]%Q) in
  let w' := runOps [OpWait 5 10000; OpDamageBoss 10] (unmount w) in
  phase w' = EXECUTING /\ calls w' = [onPlayerHit 40].
Proof.
  cbv zeta.
  destruct (unmount_stops_cycle 1 1000 false [1 # 2]%Q
              [OpForceAttack "stomp_shockwave"; OpWait 5 1900]
              [OpWait 5 10000; OpDamageBoss 10]) as [_ [Hp _]].
  - reflexivity.
  - split; [rewrite Hp|]; vm_compute; reflexivity.
Defined.

(** ** A full cycle *)

(** An attack of the catalog forced right after the mount runs its cycle on
    time: [EXECUTING] after [telegraphDuration], [RECOVERY] after
    [executeDuration] more, back to [IDLE] with no current attack after
    [recoveryDuration] more, which is the sum of the three durations after
    the force; on the way [onPlayerHit] is called once with the damage of
    the attack, unless the player was invulnerable at the mount, and not
    before [EXECUTING] is entered. *)
Theorem forced_cycle (a : Attack) (level hp : Z) (invulnerable : bool) (rnd : list Q) :
  In a catalog ->
  let w := forceAttack (id a) (mount level hp invulnerable rnd) in
  let tele := inject_Z (telegraphDuration a) in
  let exec := inject_Z (executeDuration a) in
  let rec := inject_Z (recoveryDuration a) in
  let hits := if invulnerable then [] else [onPlayerHit (damage a)] in
  (phase w = TELEGRAPH /\ currentAttack w = Some a) /\
  (phase (wait 4 tele w) = EXECUTING /\ calls (wait 4 tele w) = []) /\
  (phase (wait 4 (tele + exec) w) = RECOVERY /\ calls (wait 4 (tele + exec) w) = hits) /\
  (phase (wait 4 (tele + exec + rec) w) = IDLE /\
   currentAttack (wait 4 (tele + exec + rec) w) = None /\
   (now (wait 4 (tele + exec + rec) w) == tele + exec + rec)%Q /\
   calls (wait 4 (tele + exec + rec) w) = hits).
Proof.
  intros Hin. cbv zeta. apply catalog_cases in Hin.
  assert (Hrnd : rnd = [] \/ (exists u, rnd = [u]) \/ exists u v r, rnd = u :: v :: r).
  { destruct rnd as [|u [|v r]]; eauto 6. }
  destruct Hrnd as [->|[[u ->]|[u [v [r ->]]]]];
    destruct hp as [|p|p]; destruct invulnerable;
    repeat (destruct Hin as [->|Hin]; [vm_compute; repeat split|]);
    subst a; vm_compute; repeat split.
Qed.

Lemma forced_cycle_witness :
  phase (wait 4 (inject_Z 1800 + inject_Z 1200 + inject_Z 1500)
              (forceAttack "stomp_shockwave" (mount 1 1000 false [1 # 2; 1 # 3]%Q)))
  = IDLE.
Proof.
  destruct (forced_cycle STOMP_SHOCKWAVE 1 1000 false [1 # 2; 1 # 3]%Q)
    as [_ [_ [_ [Hidle _]]]].
  - cbn. auto.
  - exact Hidle.
Defined.
